(** * Directed graph container (graph.py): model and verification

    A shallow embedding of [Vertex], [GraphException] and [DirectedGraph]
    from graph.py, followed by the properties of the mutators and of the
    three searches.

    Python objects are modelled as follows.
    - A [dict] keeps its keys in insertion order, so it is an association
      list with the three operations the code uses: lookup, item assignment
      (in place when the key exists, appended otherwise) and [del].
    - A [set] is only used through [add], [in] and a final iteration whose
      order Python leaves to the hash values: it is a [gset string].
    - Integers are unbounded: [Z].
    - A raised exception ends the call; mutators return the outcome together
      with the state of the graph at that point.
    - The [while] loops are run by a fuel-indexed iterator; termination is
      proved separately, for every fuel large enough. *)

From Stdlib Require Import ZArith Lia Sorted.
From stdpp Require Import gmap strings list.

Open Scope Z_scope.

(** ** Python dictionaries *)

Definition dict (V : Type) : Type := list (string * V).

Section dict_ops.
Context {V : Type}.

(** [d[k]], [None] standing for a missing key. *)
Fixpoint dict_get (k : string) (d : dict V) : option V :=
  match d with
  | [] => None
  | (k', v) :: d' => if decide (k = k') then Some v else dict_get k d'
  end.

(** [k in d] *)
Definition dict_contains (k : string) (d : dict V) : bool :=
  match dict_get k d with Some _ => true | None => false end.

(** [d[k] = v] *)
Fixpoint dict_set (k : string) (v : V) (d : dict V) : dict V :=
  match d with
  | [] => [(k, v)]
  | (k', v') :: d' =>
      if decide (k = k') then (k, v) :: d' else (k', v') :: dict_set k v d'
  end.

(** [del d[k]], only ever executed when [k in d]. *)
Definition dict_del (k : string) (d : dict V) : dict V :=
  filter (λ kv, kv.1 ≠ k) (d : list (string * V)).

(** [for k in d], [[k for k in d]] *)
Definition dict_keys (d : dict V) : list string := d.*1.

(** [len(d)] *)
Definition dict_len (d : dict V) : Z := Z.of_nat (length d).
End dict_ops.

(** ** Exceptions and outcomes *)

Inductive exn : Type :=
  | GraphException (message : string)
  | KeyError (key : string)
  | TypeError.

Inductive result (R : Type) : Type :=
  | Ok (r : R)
  | Raise (e : exn).
Arguments Ok {R} r.
Arguments Raise {R} e.

Definition msg_no_vertex : string :=
  "Error: There is no vertex in the graph with the provided identifier.".
Definition msg_no_source : string :=
  "Error: There is no vertex in the graph with the provided source identifier.".
Definition msg_no_dest : string :=
  "Error: There is no vertex in the graph with the provided destination identifier.".
Definition msg_no_target : string :=
  "Error: There is no vertex in the graph with the provided target identifier.".
Definition msg_no_weight : string :=
  "Error: Graph is weighted - all edges must be supplied with a weight.".
Definition msg_no_edge : string :=
  "Error: No edge exists between the source vertex and destination vertex.".
Definition msg_unweighted : string :=
  "Error: min_path() requires a weighted graph. Current graph unweighted.".

(** The spec's error kinds, read off the messages of [GraphException]. *)
Definition NotFound (e : exn) : Prop :=
  e = GraphException msg_no_vertex ∨ e = GraphException msg_no_source ∨
  e = GraphException msg_no_dest ∨ e = GraphException msg_no_target ∨
  e = GraphException msg_no_edge.

Definition InvalidArgument (e : exn) : Prop :=
  e = GraphException msg_no_weight ∨ e = GraphException msg_unweighted.

(** ** Vertex and DirectedGraph *)

(** An edge weight as [add_edge] receives it: [None] or an integer. *)
Definition weight : Type := option Z.

(** Python truthiness of a weight: [None] and [0] are falsy. *)
Definition truthy (w : weight) : bool :=
  match w with
  | Some z => negb (z =? 0)
  | None => false
  end.

(** Truthiness of an optional identifier: [None] and [""] are falsy. *)
Definition truthy_id (t : option string) : bool :=
  match t with
  | Some s => negb (String.eqb s "")
  | None => false
  end.

Record Vertex (A : Type) : Type := mkVertex {
  id : string;
  value : A;
  adj_dict : dict weight
}.
Arguments mkVertex {A} _ _ _.
Arguments id {A} _.
Arguments value {A} _.
Arguments adj_dict {A} _.

Record DirectedGraph (A : Type) : Type := mkGraph {
  _vertices : dict (Vertex A);
  _size : Z;
  _weighted : bool
}.
Arguments mkGraph {A} _ _ _.
Arguments _vertices {A} _.
Arguments _size {A} _.
Arguments _weighted {A} _.

(** ** Containers of ds_library *)

(** Modelled from the spec: ds_library.Stack is not part of the sources;
    [pop] returns the most recently pushed item not yet popped. *)
Definition Stack : Type := list string.
Definition stack_push (item : string) (s : Stack) : Stack := item :: s.
Definition stack_pop (s : Stack) : option (string * Stack) :=
  match s with
  | [] => None
  | item :: s' => Some (item, s')
  end.

(** Modelled from the spec: ds_library.Queue is not part of the sources;
    [dequeue] returns the least recently enqueued item not yet dequeued. *)
Definition Queue : Type := list string.
Definition queue_enqueue (item : string) (q : Queue) : Queue := q ++ [item].
Definition queue_dequeue (q : Queue) : option (string * Queue) :=
  match q with
  | [] => None
  | item :: q' => Some (item, q')
  end.

(** Modelled from the spec: ds_library.PriorityQueue is not part of the
    sources; [dequeue] returns an entry of smallest priority among those
    enqueued, here the earliest enqueued of them. *)
Definition PriorityQueue : Type := list (Z * string).
Definition pq_enqueue (priority : Z) (item : string) (q : PriorityQueue)
  : PriorityQueue := q ++ [(priority, item)].

Fixpoint pq_min (best : Z * string) (q : PriorityQueue) : Z * string :=
  match q with
  | [] => best
  | e :: q' => if e.1 <? best.1 then pq_min e q' else pq_min best q'
  end.

Fixpoint pq_remove (e : Z * string) (q : PriorityQueue) : PriorityQueue :=
  match q with
  | [] => []
  | e' :: q' => if decide (e = e') then q' else e' :: pq_remove e q'
  end.

Definition pq_dequeue (q : PriorityQueue)
  : option ((Z * string) * PriorityQueue) :=
  match q with
  | [] => None
  | e :: q' => let m := pq_min e q' in Some (m, pq_remove m q)
  end.

(** ** Loops *)

(** [run_loop body fuel s] runs a [while] loop from state [s]: [body] either
    hands over the next state or leaves the loop with a result. [None] means
    that [fuel] iterations were not enough. *)
Fixpoint run_loop {S R : Type} (body : S → S + R) (fuel : nat) (s : S)
  : option R :=
  match fuel with
  | O => None
  | Datatypes.S n =>
      match body s with
      | inl s' => run_loop body n s'
      | inr r => Some r
      end
  end.

(** The state at the head of the loop after [n] full iterations, if the loop
    runs that long. *)
Fixpoint loop_state {S R : Type} (body : S → S + R) (n : nat) (s : S)
  : option S :=
  match n with
  | O => Some s
  | Datatypes.S n' =>
      match body s with
      | inl s' => loop_state body n' s'
      | inr _ => None
      end
  end.

(** ** Operations of DirectedGraph *)

Section graph_ops.
Context {A : Type}.
Implicit Types (self : DirectedGraph A).

(** [DirectedGraph(weighted)] *)
Definition new_graph (weighted : bool) : DirectedGraph A :=
  mkGraph [] 0 weighted.

Definition add_vertex self (identifier : string) (value : A)
  : result unit * DirectedGraph A :=
  match dict_get identifier (_vertices self) with
  | Some old_vert =>
      (Ok tt,
       mkGraph
         (dict_set identifier
            (mkVertex identifier value (adj_dict old_vert))
            (_vertices self))
         (_size self) (_weighted self))
  | None =>
      (Ok tt,
       mkGraph
         (dict_set identifier (mkVertex identifier value [])
            (_vertices self))
         (_size self + 1) (_weighted self))
  end.

(** Body of the loop of [remove_vertex] that removes inbound edges. *)
Definition sever_inbound (identifier : string)
    (vertices : dict (Vertex A)) (vertex_id : string) : dict (Vertex A) :=
  match dict_get vertex_id vertices with
  | Some vertex =>
      if dict_contains identifier (adj_dict vertex) then
        dict_set vertex_id
          (mkVertex (id vertex) (value vertex)
             (dict_del identifier (adj_dict vertex)))
          vertices
      else vertices
  | None => vertices
  end.

Definition remove_vertex self (identifier : string)
  : result unit * DirectedGraph A :=
  if negb (dict_contains identifier (_vertices self)) then
    (Raise (GraphException msg_no_vertex), self)
  else
    let vertices :=
      fold_left (sever_inbound identifier)
        (dict_keys (_vertices self)) (_vertices self) in
    (Ok tt,
     mkGraph (dict_del identifier vertices) (_size self - 1)
       (_weighted self)).

Definition add_edge self (source_id dest_id : string) (w : weight)
  : result unit * DirectedGraph A :=
  if negb (dict_contains source_id (_vertices self)) then
    (Raise (GraphException msg_no_source), self)
  else if negb (dict_contains dest_id (_vertices self)) then
    (Raise (GraphException msg_no_dest), self)
  else
    match dict_get source_id (_vertices self) with
    | None => (Raise (KeyError source_id), self)
    | Some source_vert =>
        if negb (dict_contains dest_id (adj_dict source_vert)) then
          if _weighted self && negb (truthy w) then
            (Raise (GraphException msg_no_weight), self)
          else
            (Ok tt,
             mkGraph
               (dict_set source_id
                  (mkVertex (id source_vert) (value source_vert)
                     (dict_set dest_id
                        (if _weighted self then w else None)
                        (adj_dict source_vert)))
                  (_vertices self))
               (_size self) (_weighted self))
        else (Ok tt, self)
    end.

Definition remove_edge self (source_id dest_id : string)
  : result unit * DirectedGraph A :=
  match dict_get source_id (_vertices self) with
  | Some source_vert =>
      if dict_contains dest_id (adj_dict source_vert) then
        (Ok tt,
         mkGraph
           (dict_set source_id
              (mkVertex (id source_vert) (value source_vert)
                 (dict_del dest_id (adj_dict source_vert)))
              (_vertices self))
           (_size self) (_weighted self))
      else (Raise (GraphException msg_no_edge), self)
  | None => (Raise (GraphException msg_no_edge), self)
  end.

Definition edge_exists self (source_id dest_id : string) : bool :=
  match dict_get source_id (_vertices self) with
  | Some source_vert => dict_contains dest_id (adj_dict source_vert)
  | None => false
  end.

Definition vertex_exists self (identifier : string) : bool :=
  dict_contains identifier (_vertices self).

(** The inner [None] is Python's [None], returned when the vertex has no
    outbound edge. *)
Definition get_adjacent_vertices self (identifier : string)
  : result (option (list string)) :=
  match dict_get identifier (_vertices self) with
  | None => Raise (GraphException msg_no_vertex)
  | Some vertex =>
      if (dict_len (adj_dict vertex) =? 0)%Z then Ok None
      else Ok (Some (dict_keys (adj_dict vertex)))
  end.

(** *** depth_first_search *)

(** Loop state: [visited_vert] and [stack]. *)
Definition dfs_state : Type := gset string * Stack.

Definition dfs_body self (target_id : string) (st : dfs_state)
  : dfs_state + result bool :=
  let '(visited_vert, stack) := st in
  match stack_pop stack with
  | None => inr (Ok false)
  | Some (vert_id, stack) =>
      if decide (vert_id ∈ visited_vert) then inl (visited_vert, stack)
      else
        let visited_vert := visited_vert ∪ {[vert_id]} in
        if decide (vert_id = target_id) then inr (Ok true)
        else
          match dict_get vert_id (_vertices self) with
          | None => inr (Raise (KeyError vert_id))
          | Some v =>
              inl (visited_vert,
                   fold_left (λ stack vertex, stack_push vertex stack)
                     (dict_keys (adj_dict v)) stack)
          end
  end.

Definition depth_first_search (fuel : nat) self
    (source_id target_id : string) : option (result bool) :=
  if negb (dict_contains source_id (_vertices self)) then
    Some (Raise (GraphException msg_no_source))
  else if negb (dict_contains target_id (_vertices self)) then
    Some (Raise (GraphException msg_no_target))
  else
    run_loop (dfs_body self target_id) fuel (∅, stack_push source_id []).

(** *** breadth_first_search *)

(** What the call returns: the list alone, or the pair with the flag. *)
Inductive bfs_return : Type :=
  | Reachable (reachable_vert : list string)
  | Found (target_found : bool) (reachable_vert : list string).

(** Loop state: [visited_vert], [q] and [target_found]. *)
Definition bfs_state : Type := gset string * Queue * bool.

Definition bfs_visited (st : bfs_state) : gset string := st.1.1.
Definition bfs_queue (st : bfs_state) : Queue := st.1.2.

Definition bfs_body self (target_id : option string) (st : bfs_state)
  : bfs_state + result bfs_return :=
  let '(visited_vert, q, target_found) := st in
  match queue_dequeue q with
  | None =>
      let reachable_vert := elements visited_vert in
      if truthy_id target_id then
        inr (Ok (Found target_found reachable_vert))
      else inr (Ok (Reachable reachable_vert))
  | Some (vert_id, q) =>
      let target_found :=
        if truthy_id target_id && bool_decide (Some vert_id = target_id)
        then true else target_found in
      let visited_vert := visited_vert ∪ {[vert_id]} in
      match dict_get vert_id (_vertices self) with
      | None => inr (Raise (KeyError vert_id))
      | Some v =>
          inl (visited_vert,
               fold_left
                 (λ q vertex,
                    if decide (vertex ∈ visited_vert) then q
                    else queue_enqueue vertex q)
                 (dict_keys (adj_dict v)) q,
               target_found)
      end
  end.

Definition bfs_init (source_id : string) : bfs_state :=
  (∅, queue_enqueue source_id [], false).

Definition breadth_first_search (fuel : nat) self (source_id : string)
    (target_id : option string) : option (result bfs_return) :=
  if negb (dict_contains source_id (_vertices self)) then
    Some (Raise (GraphException msg_no_source))
  else if truthy_id target_id &&
          negb (match target_id with
                | Some t => dict_contains t (_vertices self)
                | None => false
                end) then
    Some (Raise (GraphException msg_no_target))
  else run_loop (bfs_body self target_id) fuel (bfs_init source_id).

(** *** min_path *)

(** Loop state: [visited_vert] and [p_queue]. *)
Definition mp_state : Type := dict Z * PriorityQueue.

(** The [for vert in adj_vert] loop; adding [None] to an integer raises
    [TypeError]. *)
Definition mp_enqueue_adj (distance : Z) (adj_vert : dict weight)
    (p_queue : PriorityQueue) : result PriorityQueue :=
  fold_left
    (λ acc vert,
       match acc with
       | Raise e => Raise e
       | Ok p_queue =>
           match dict_get vert adj_vert with
           | Some (Some w) =>
               let vert_priority := distance + w in
               Ok (pq_enqueue vert_priority vert p_queue)
           | Some None => Raise TypeError
           | None => Raise (KeyError vert)
           end
       end)
    (dict_keys adj_vert) (Ok p_queue).

(** The loop leaves with the final [visited_vert]. *)
Definition mp_body self (st : mp_state) : mp_state + result (dict Z) :=
  let '(visited_vert, p_queue) := st in
  match pq_dequeue p_queue with
  | None => inr (Ok visited_vert)
  | Some ((distance, vertex), p_queue) =>
      if negb (dict_contains vertex visited_vert) then
        let visited_vert := dict_set vertex distance visited_vert in
        match dict_get vertex (_vertices self) with
        | None => inr (Raise (KeyError vertex))
        | Some v =>
            match mp_enqueue_adj distance (adj_dict v) p_queue with
            | Ok p_queue => inl (visited_vert, p_queue)
            | Raise e => inr (Raise e)
            end
        end
      else inl (visited_vert, p_queue)
  end.

Definition mp_init (source_id : string) : mp_state :=
  ([], pq_enqueue 0 source_id []).

(** The [while] loop of [min_path], with the checks before it. *)
Definition min_path_loop (fuel : nat) self (source_id : string)
  : option (result (dict Z)) :=
  if negb (_weighted self) then
    Some (Raise (GraphException msg_unweighted))
  else if negb (dict_contains source_id (_vertices self)) then
    Some (Raise (GraphException msg_no_vertex))
  else run_loop (mp_body self) fuel (mp_init source_id).

(** [min_path]: the body of the function ends with the loop, there is no
    [return] statement, so a call that raises nothing returns Python's
    [None] (the inner [None]); [Some (order, distances)] would be the
    tuple the docstring announces. *)
Definition min_path (fuel : nat) self (source_id : string)
  : option (result (option (list string * dict Z))) :=
  match min_path_loop fuel self source_id with
  | None => None
  | Some (Raise e) => Some (Raise e)
  | Some (Ok visited_vert) => Some (Ok None)
  end.

(** ** Notions used by the specification *)

(** There is an edge from [u] to [v]. *)
Definition edge self (u v : string) : Prop :=
  ∃ vert, dict_get u (_vertices self) = Some vert ∧
          is_Some (dict_get v (adj_dict vert)).

(** There is a directed path, possibly of length zero. *)
Definition path self : string → string → Prop := rtc (edge self).

(** Every adjacency key names a vertex of the graph. *)
Definition adj_closed self : Prop :=
  ∀ u vert v, dict_get u (_vertices self) = Some vert →
              is_Some (dict_get v (adj_dict vert)) →
              is_Some (dict_get v (_vertices self)).

(** A vertex without its edge to [identifier]. *)
Definition without_edge (identifier : string) (vertex : Vertex A)
  : Vertex A :=
  mkVertex (id vertex) (value vertex)
    (dict_del identifier (adj_dict vertex)).

(** The graphs a caller can obtain: a fresh graph, then any sequence of
    the four mutators, whether a call raises or not. *)
Inductive built : DirectedGraph A → Prop :=
  | built_new weighted : built (new_graph weighted)
  | built_add_vertex self identifier value :
      built self → built (add_vertex self identifier value).2
  | built_remove_vertex self identifier :
      built self → built (remove_vertex self identifier).2
  | built_add_edge self source_id dest_id w :
      built self → built (add_edge self source_id dest_id w).2
  | built_remove_edge self source_id dest_id :
      built self → built (remove_edge self source_id dest_id).2.

(** The same, as a check that can be run. *)
Definition closed self : bool :=
  forallb
    (λ u, match dict_get u (_vertices self) with
          | Some vert =>
              forallb (λ v, dict_contains v (_vertices self))
                (dict_keys (adj_dict vert))
          | None => true
          end)
    (dict_keys (_vertices self)).
End graph_ops.

(** ** Loop invariants and measures *)

Section loop_specs.
Context {A : Type} (g : DirectedGraph A).

(** Number of vertices of the graph outside [visited]. *)
Definition unvisited (visited : gset string) : nat :=
  size (list_to_set (dict_keys (_vertices g)) ∖ visited).

(** Number of entries of [q] that are in [visited] already. *)
Definition revisits (visited : gset string) (q : list string) : nat :=
  length (filter (λ v, v ∈ visited) q).

(** What holds at the head of a search loop started at [s]: [s] is known,
    the neighbours of a visited vertex are known, and what is known is
    reachable from [s] and in the graph. The pending identifiers are the
    stack of [depth_first_search] or the queue of [breadth_first_search]. *)
Definition search_inv (s : string) (visited : gset string)
    (pending : list string) : Prop :=
  (s ∈ visited ∨ s ∈ pending) ∧
  (∀ u v, u ∈ visited → edge g u v →
          v ∈ visited ∨ v ∈ pending) ∧
  (∀ v, v ∈ visited ∨ v ∈ pending → path g s v) ∧
  (∀ v, v ∈ pending → is_Some (dict_get v (_vertices g))).

Definition dfs_inv (s t : string) (st : dfs_state) : Prop :=
  search_inv s st.1 st.2 ∧ t ∉ st.1.

Definition bfs_inv (s : string) (st : bfs_state) : Prop :=
  search_inv s (bfs_visited st) (bfs_queue st).

(** What a completed [breadth_first_search] loop returns: the vertices
    reachable from [s], each once, alone or with the flag according to
    the truthiness of the target. *)
Definition bfs_post (s : string) (target : option string)
    (r : result bfs_return) : Prop :=
  ∃ l, NoDup l ∧ (∀ v, v ∈ l ↔ path g s v) ∧
       if truthy_id target then ∃ found, r = Ok (Found found l)
       else r = Ok (Reachable l).

(** Measures of the [min_path] loop. *)
Definition mp_unvisited (st : mp_state) : nat :=
  unvisited (list_to_set (dict_keys st.1)).

Definition mp_pending (st : mp_state) : nat := length st.2.
End loop_specs.

(** ** Example graphs

    Built through the public operations, as a caller would. *)

(** The state of the graph after a call. *)
Definition after {A : Type} (call : result unit * DirectedGraph A)
  : DirectedGraph A := call.2.

(** Vertices [A], [B], [C] holding no payload. *)
Definition abc (weighted : bool) : DirectedGraph unit :=
  let g := new_graph weighted in
  let g := after (add_vertex g "A" tt) in
  let g := after (add_vertex g "B" tt) in
  after (add_vertex g "C" tt).

(** Weighted, edges A->B (1), B->C (2), A->C (5). *)
Definition abc_weighted : DirectedGraph unit :=
  let g := abc true in
  let g := after (add_edge g "A" "B" (Some 1)) in
  let g := after (add_edge g "B" "C" (Some 2)) in
  after (add_edge g "A" "C" (Some 5)).

(** Unweighted, edges A->B, B->C. *)
Definition abc_chain : DirectedGraph unit :=
  let g := abc false in
  let g := after (add_edge g "A" "B" None) in
  after (add_edge g "B" "C" None).

(** Unweighted, edges A->B, A->C, B->C. *)
Definition abc_triangle : DirectedGraph unit :=
  let g := abc false in
  let g := after (add_edge g "A" "B" None) in
  let g := after (add_edge g "A" "C" None) in
  after (add_edge g "B" "C" None).

(** ** Further notions used by the properties *)

Section graph_specs.
Context {A : Type} (g : DirectedGraph A).

(** What the adjacency mapping of [u] holds for [v]: [None] when there is
    no such edge, [Some w] when the edge is stored with [w] (itself [None]
    in an unweighted graph). This is [self._vertices[u].adj_dict[v]]. *)
Definition edge_weight (u v : string) : option weight :=
  match dict_get u (_vertices g) with
  | Some vert => dict_get v (adj_dict vert)
  | None => None
  end.

(** A directed path from [u] with the sum of the weights stored on its
    edges. *)
Inductive wpath (u : string) : string → Z → Prop :=
  | wpath_nil : wpath u u 0
  | wpath_snoc v w d c :
      wpath u v d → edge_weight v w = Some (Some c) → wpath u w (d + c).

(** No stored weight is negative. *)
Definition nonnegative_weights : Prop :=
  ∀ u v c, edge_weight u v = Some (Some c) → 0 ≤ c.
End graph_specs.

(** ** The representation invariant, in full *)

Section graph_invariant.
Context {A : Type} (g : DirectedGraph A).

(** What every graph built by the public operations satisfies, besides
    [adj_closed]: the vertices have distinct identifiers and [_size] counts
    them; a vertex is stored under its own identifier and its adjacency
    keys are distinct; a stored weight is a non-zero integer in a weighted
    graph and absent in an unweighted one. *)
Definition graph_ok : Prop :=
  NoDup (dict_keys (_vertices g)) ∧
  _size g = dict_len (_vertices g) ∧
  (∀ u vert, dict_get u (_vertices g) = Some vert →
     id vert = u ∧ NoDup (dict_keys (adj_dict vert))) ∧
  (∀ u v w, edge_weight g u v = Some w →
     if _weighted g then truthy w = true else w = None).
End graph_invariant.

(** ** Invariants of the [min_path] loop *)

Section min_path_specs.
Context {A : Type} (g : DirectedGraph A) (s : string).

(** What holds at the head of the loop started at [s]: the finalized
    identifiers are distinct; every distance, finalized or queued, is the
    weight of a path from [s]; each edge out of a finalized vertex leads to
    a finalized vertex or has its entry in the queue; and [s] is finalized
    at 0, or about to be. *)
Definition mp_inv (st : mp_state) : Prop :=
  NoDup (dict_keys st.1) ∧
  (∀ d v, (d, v) ∈ st.2 → wpath g s v d) ∧
  (∀ v d, dict_get v st.1 = Some d → wpath g s v d) ∧
  (∀ u du w c,
     dict_get u st.1 = Some du → edge_weight g u w = Some (Some c) →
     is_Some (dict_get w st.1) ∨ (du + c, w) ∈ st.2) ∧
  ((st.1 = [] ∧ st.2 = [(0, s)]) ∨ dict_get s st.1 = Some 0).

(** With weights that are not negative: a finalized distance is minimal,
    no queued distance is below a finalized one, and the distances were
    finalized in non-decreasing order. *)
Definition mp_inv_min (st : mp_state) : Prop :=
  (∀ v d d', dict_get v st.1 = Some d → wpath g s v d' → d ≤ d') ∧
  (∀ d v u du, (d, v) ∈ st.2 → dict_get u st.1 = Some du → du ≤ d) ∧
  StronglySorted Z.le (st.1.*2).

(** What the loop ends with, for [visited_vert]. *)
Definition mp_post (visited_vert : dict Z) : Prop :=
  NoDup (dict_keys visited_vert) ∧
  (∀ v, v ∈ dict_keys visited_vert ↔ path g s v) ∧
  dict_get s visited_vert = Some 0 ∧
  (∀ v d, dict_get v visited_vert = Some d → wpath g s v d).

Definition mp_post_min (visited_vert : dict Z) : Prop :=
  (∀ v d d', dict_get v visited_vert = Some d → wpath g s v d' → d ≤ d') ∧
  StronglySorted Z.le (visited_vert.*2).
End min_path_specs.

(** * Properties *)

(** ** Dictionaries *)

Section dict_facts.
Context {V : Type}.
Implicit Types (d : dict V) (k : string) (v : V).

Lemma dict_get_set k k' v d :
  dict_get k (dict_set k' v d) =
  if decide (k = k') then Some v else dict_get k d.
Proof.
  induction d as [|[k0 v0] d IH]; simpl.
  - repeat case_decide; congruence.
  - repeat (case_decide; simpl); try congruence.
Qed.

Lemma dict_get_set_eq k v d : dict_get k (dict_set k v d) = Some v.
Proof. rewrite dict_get_set. by case_decide. Qed.

Lemma dict_get_set_ne k k' v d :
  k ≠ k' → dict_get k (dict_set k' v d) = dict_get k d.
Proof. intros. rewrite dict_get_set. by case_decide. Qed.

Lemma dict_get_del k k' d :
  dict_get k (dict_del k' d) =
  if decide (k = k') then None else dict_get k d.
Proof.
  unfold dict_del. induction d as [|[k0 v0] d IH].
  - simpl. by case_decide.
  - rewrite filter_cons. simpl.
    destruct (decide (k0 ≠ k')) as [Hne|Heq]; simpl.
    + rewrite IH. repeat case_decide; congruence.
    + apply dec_stable in Heq. subst k0. rewrite IH.
      repeat case_decide; congruence.
Qed.

Lemma dict_get_del_eq k d : dict_get k (dict_del k d) = None.
Proof. rewrite dict_get_del. by case_decide. Qed.

Lemma dict_get_del_ne k k' d :
  k ≠ k' → dict_get k (dict_del k' d) = dict_get k d.
Proof. intros. rewrite dict_get_del. by case_decide. Qed.

Lemma dict_keys_get k d : k ∈ dict_keys d ↔ is_Some (dict_get k d).
Proof.
  unfold dict_keys. induction d as [|[k0 v0] d IH]; simpl.
  - split; [by intros ?%elem_of_nil | by intros [? ?]].
  - rewrite elem_of_cons, IH. case_decide; subst.
    + split; eauto.
    + split; [by intros [?|?] | auto].
Qed.

Lemma dict_contains_get k d :
  dict_contains k d = true ↔ is_Some (dict_get k d).
Proof.
  unfold dict_contains. destruct (dict_get k d); split; eauto.
  - discriminate.
  - by intros [? ?].
Qed.

Lemma dict_contains_false k d :
  dict_contains k d = false ↔ dict_get k d = None.
Proof. unfold dict_contains. by destruct (dict_get k d). Qed.

Lemma dict_contains_keys k d : dict_contains k d = true ↔ k ∈ dict_keys d.
Proof. by rewrite dict_contains_get, dict_keys_get. Qed.

Lemma dict_keys_set_present k v d :
  is_Some (dict_get k d) → dict_keys (dict_set k v d) = dict_keys d.
Proof.
  unfold dict_keys. induction d as [|[k0 v0] d IH]; simpl.
  - by intros [? ?].
  - case_decide; subst; simpl; [done|]. intros. f_equal. by apply IH.
Qed.

Lemma dict_set_absent k v d :
  dict_get k d = None → dict_set k v d = d ++ [(k, v)].
Proof.
  induction d as [|[k0 v0] d IH]; simpl; [done|].
  case_decide; [done|]. intros. by rewrite IH.
Qed.

Lemma dict_del_absent k d : dict_get k d = None → dict_del k d = d.
Proof.
  unfold dict_del. induction d as [|[k0 v0] d IH]; [done|].
  rewrite filter_cons. simpl.
  case_decide; [done|]. intros. rewrite decide_True by congruence.
  by rewrite IH.
Qed.

Lemma dict_contains_set k k' v d :
  dict_contains k (dict_set k' v d) =
  if decide (k = k') then true else dict_contains k d.
Proof. unfold dict_contains. rewrite dict_get_set. by case_decide. Qed.

Lemma dict_contains_del k k' d :
  dict_contains k (dict_del k' d) =
  if decide (k = k') then false else dict_contains k d.
Proof. unfold dict_contains. rewrite dict_get_del. by case_decide. Qed.
End dict_facts.

(** ** Loops *)

Section loop_facts.
Context {S R : Type} (body : S → S + R).

Lemma run_loop_mono n m s r :
  run_loop body n s = Some r → (n ≤ m)%nat → run_loop body m s = Some r.
Proof.
  revert m s. induction n as [|n IH]; intros m s; simpl; [done|].
  destruct m as [|m]; [lia|]. simpl.
  destruct (body s); [|done]. intros. apply IH; [done | lia].
Qed.

Lemma run_loop_det n m s r r' :
  run_loop body n s = Some r → run_loop body m s = Some r' → r = r'.
Proof.
  intros Hn Hm.
  apply (run_loop_mono _ (n `max` m)%nat) in Hn; [|lia].
  apply (run_loop_mono _ (n `max` m)%nat) in Hm; [|lia].
  congruence.
Qed.

(** Partial correctness: an invariant of the loop body carries over to
    the result. *)
Lemma run_loop_inv (I : S → Prop) (Q : R → Prop) :
  (∀ s, I s → match body s with inl s' => I s' | inr r => Q r end) →
  ∀ n s r, I s → run_loop body n s = Some r → Q r.
Proof.
  intros Hstep n. induction n as [|n IH]; intros s r Hs; simpl; [done|].
  specialize (Hstep s Hs). destruct (body s) as [s'|r'].
  - by apply IH.
  - intros [= <-]. done.
Qed.

(** Termination: if every iteration decreases the pair of measures
    [(m1, m2)] in the lexicographic order, some fuel is enough. *)
Lemma run_loop_terminates (m1 m2 : S → nat) :
  (∀ s s', body s = inl s' →
     (m1 s' < m1 s)%nat ∨ (m1 s' = m1 s ∧ m2 s' < m2 s)%nat) →
  ∀ s, ∃ n r, run_loop body n s = Some r.
Proof.
  intros Hdec s.
  remember (m1 s) as a eqn:Ha. revert s Ha.
  induction (lt_wf a) as [a _ IHa]. intros s Ha.
  remember (m2 s) as b eqn:Hb. revert s Ha Hb.
  induction (lt_wf b) as [b _ IHb]. intros s Ha Hb.
  destruct (body s) as [s'|r] eqn:Hbody.
  - destruct (Hdec _ _ Hbody) as [Hlt|[Heq Hlt]].
    + destruct (IHa (m1 s')) with (s := s') as (n & r & Hn); [lia|done|].
      exists (Datatypes.S n), r. simpl. by rewrite Hbody.
    + destruct (IHb (m2 s')) with (s := s') as (n & r & Hn);
        [lia|lia|done|].
      exists (Datatypes.S n), r. simpl. by rewrite Hbody.
  - exists 1%nat, r. simpl. by rewrite Hbody.
Qed.

Lemma run_loop_total (m1 m2 : S → nat) :
  (∀ s s', body s = inl s' →
     (m1 s' < m1 s)%nat ∨ (m1 s' = m1 s ∧ m2 s' < m2 s)%nat) →
  ∀ s, ∃ r n, ∀ m, (n ≤ m)%nat → run_loop body m s = Some r.
Proof.
  intros Hdec s.
  destruct (run_loop_terminates m1 m2 Hdec s) as (n & r & Hn).
  exists r, n. intros m Hm. by apply (run_loop_mono n).
Qed.

Lemma loop_state_app n m s s' s'' :
  loop_state body n s = Some s' → loop_state body m s' = Some s'' →
  loop_state body (n + m) s = Some s''.
Proof.
  revert s. induction n as [|n IH]; intros s; simpl.
  - by intros [= ->].
  - destruct (body s); [|done]. apply IH.
Qed.

Lemma loop_state_inv (I : S → Prop) :
  (∀ s s', I s → body s = inl s' → I s') →
  ∀ n s s', I s → loop_state body n s = Some s' → I s'.
Proof.
  intros Hstep n. induction n as [|n IH]; intros s s' Hs; simpl.
  - by intros [= <-].
  - destruct (body s) as [s1|] eqn:Hb; [|done]. apply IH. by eapply Hstep.
Qed.
End loop_facts.

(** ** Mutators *)

Section mutator_facts.
Context {A : Type}.
Implicit Types (g : DirectedGraph A) (vs : dict (Vertex A)).

Lemma vertex_exists_get g k :
  vertex_exists g k = true ↔ is_Some (dict_get k (_vertices g)).
Proof. apply dict_contains_get. Qed.

Lemma edge_exists_edge g u v : edge_exists g u v = true ↔ edge g u v.
Proof.
  unfold edge_exists, edge. split.
  - destruct (dict_get u (_vertices g)) as [vert|]; [|done].
    intros ?%dict_contains_get. eauto.
  - intros (vert & -> & ?). by apply dict_contains_get.
Qed.

Lemma without_edge_absent v (vertex : Vertex A) :
  dict_get v (adj_dict vertex) = None → without_edge v vertex = vertex.
Proof.
  intros. unfold without_edge. rewrite dict_del_absent by done.
  by destruct vertex.
Qed.

Lemma without_edge_idem v (vertex : Vertex A) :
  without_edge v (without_edge v vertex) = without_edge v vertex.
Proof. apply without_edge_absent. simpl. apply dict_get_del_eq. Qed.

Lemma sever_inbound_get v vs k u :
  dict_get u (sever_inbound v vs k) =
  if decide (u = k) then without_edge v <$> dict_get u vs
  else dict_get u vs.
Proof.
  unfold sever_inbound.
  destruct (dict_get k vs) as [vertex|] eqn:Hk.
  - destruct (dict_contains v (adj_dict vertex)) eqn:Hc.
    + rewrite dict_get_set. case_decide; [subst; by rewrite Hk | done].
    + case_decide; [subst|done]. rewrite Hk. simpl.
      apply dict_contains_false in Hc. by rewrite without_edge_absent.
  - case_decide; [subst|done]. by rewrite Hk.
Qed.

Lemma sever_all_get v ks vs u :
  dict_get u (fold_left (sever_inbound v) ks vs) =
  if decide (u ∈ ks) then without_edge v <$> dict_get u vs
  else dict_get u vs.
Proof.
  revert vs. induction ks as [|k ks IH]; intros vs.
  - case_decide as Hin; [|done]. by apply elem_of_nil in Hin.
  - change (fold_left ?f (k :: ks) vs) with (fold_left f ks (f vs k)).
    rewrite IH, sever_inbound_get.
    destruct (decide (u ∈ ks)) as [Hin|Hin], (decide (u = k)) as [->|Hne].
    + rewrite decide_True by (by left).
      destruct (dict_get k vs); simpl; [|done].
      by rewrite without_edge_idem.
    + by rewrite decide_True by (by right).
    + by rewrite decide_True by (by left).
    + rewrite decide_False; [done|]. by intros [?|?]%elem_of_cons.
Qed.

Lemma sever_all_keys_get v vs u :
  dict_get u (fold_left (sever_inbound v) (dict_keys vs) vs) =
  without_edge v <$> dict_get u vs.
Proof.
  rewrite sever_all_get. case_decide as Hin; [done|].
  rewrite dict_keys_get in Hin.
  destruct (dict_get u vs); [|done]. destruct Hin. eauto.
Qed.

Lemma remove_vertex_get g v g' u :
  remove_vertex g v = (Ok tt, g') →
  dict_get u (_vertices g') =
  if decide (u = v) then None
  else without_edge v <$> dict_get u (_vertices g).
Proof.
  unfold remove_vertex. destruct (negb _); [done|]. intros [= <-]. simpl.
  rewrite dict_get_del. case_decide; [done|]. apply sever_all_keys_get.
Qed.
End mutator_facts.

(** C4. [remove_vertex v] on an absent [v] raises the "no vertex"
    [GraphException] (kind NotFound) and returns the graph as it was; on a
    present [v] it succeeds and, in the new graph, [v] is gone, no vertex
    [u] has an edge to [v] ([edge_exists u v] is false), every other vertex
    is the old one with [v] deleted from its adjacency mapping, and [_size]
    is one less. *)
Theorem remove_vertex_spec {A} (g : DirectedGraph A) (v : string) :
  (vertex_exists g v = false →
     remove_vertex g v = (Raise (GraphException msg_no_vertex), g) ∧
     NotFound (GraphException msg_no_vertex)) ∧
  (vertex_exists g v = true →
     ∃ g', remove_vertex g v = (Ok tt, g') ∧
       vertex_exists g' v = false ∧
       (∀ u, edge_exists g' u v = false) ∧
       (∀ u, u ≠ v →
          dict_get u (_vertices g') =
          without_edge v <$> dict_get u (_vertices g)) ∧
       _size g' = _size g - 1 ∧
       _weighted g' = _weighted g).
Proof.
  split; intros Hv.
  - split; [|by left]. unfold remove_vertex.
    unfold vertex_exists in Hv. by rewrite Hv.
  - destruct (remove_vertex g v) as [r g'] eqn:Hrm.
    assert (r = Ok tt ∧ _size g' = _size g - 1 ∧
            _weighted g' = _weighted g) as (-> & Hsz & Hw).
    { revert Hrm. unfold remove_vertex. unfold vertex_exists in Hv.
      rewrite Hv. simpl. by intros [= <- <-]. }
    pose proof (λ u, remove_vertex_get g v g' u Hrm) as Hget.
    exists g'. repeat split; try done.
    + apply dict_contains_false. rewrite Hget. by rewrite decide_True.
    + intros u. unfold edge_exists. rewrite Hget.
      case_decide; [done|].
      destruct (dict_get u (_vertices g)) as [vert|]; simpl; [|done].
      apply dict_contains_false, dict_get_del_eq.
    + intros u Hu. rewrite Hget. by rewrite decide_False.
Qed.

(** C5. [add_vertex id value2] on an existing [id] replaces the vertex by
    one with the new value and the old adjacency mapping, leaves every other
    vertex, every edge, the order of the vertices and [_size] as they were;
    on an absent [id] it adds a vertex with an empty adjacency mapping and
    adds one to [_size]. Neither call raises. *)
Theorem add_vertex_spec {A} (g : DirectedGraph A) (identifier : string)
    (value2 : A) :
  (∀ old_vert, dict_get identifier (_vertices g) = Some old_vert →
     ∃ g', add_vertex g identifier value2 = (Ok tt, g') ∧
       dict_get identifier (_vertices g') =
         Some (mkVertex identifier value2 (adj_dict old_vert)) ∧
       (∀ u, u ≠ identifier →
          dict_get u (_vertices g') = dict_get u (_vertices g)) ∧
       (∀ u w, edge_exists g' u w = edge_exists g u w) ∧
       dict_keys (_vertices g') = dict_keys (_vertices g) ∧
       _size g' = _size g ∧
       _weighted g' = _weighted g) ∧
  (vertex_exists g identifier = false →
     ∃ g', add_vertex g identifier value2 = (Ok tt, g') ∧
       dict_get identifier (_vertices g') =
         Some (mkVertex identifier value2 []) ∧
       (∀ u, u ≠ identifier →
          dict_get u (_vertices g') = dict_get u (_vertices g)) ∧
       (∀ u w, u ≠ identifier →
          edge_exists g' u w = edge_exists g u w) ∧
       (∀ w, edge_exists g' identifier w = false) ∧
       _size g' = _size g + 1 ∧
       _weighted g' = _weighted g).
Proof.
  split.
  - intros old_vert Hold. unfold add_vertex. rewrite Hold.
    eexists. split; [done|]. simpl. repeat split.
    + apply dict_get_set_eq.
    + intros u Hu. by apply dict_get_set_ne.
    + intros u w. unfold edge_exists. simpl. rewrite dict_get_set.
      case_decide; [subst; by rewrite Hold | done].
    + apply dict_keys_set_present. eauto.
  - intros Hnew%dict_contains_false. unfold add_vertex. rewrite Hnew.
    eexists. split; [done|]. simpl. repeat split.
    + apply dict_get_set_eq.
    + intros u Hu. by apply dict_get_set_ne.
    + intros u w Hu. unfold edge_exists. simpl.
      by rewrite dict_get_set_ne.
    + intros w. unfold edge_exists. simpl. by rewrite dict_get_set_eq.
Qed.

Lemma remove_vertex_spec_witness :
  remove_vertex abc_chain "Z" =
    (Raise (GraphException msg_no_vertex), abc_chain) ∧
  ∃ g', remove_vertex abc_chain "C" = (Ok tt, g') ∧
        vertex_exists g' "C" = false ∧ edge_exists g' "B" "C" = false ∧
        _size g' = 2.
Proof.
  split.
  - apply (proj1 (remove_vertex_spec abc_chain "Z")). reflexivity.
  - destruct (proj2 (remove_vertex_spec abc_chain "C"))
      as (g' & Hrm & Hv & He & _ & Hsz & _); [reflexivity|].
    exists g'. repeat split; [exact Hrm | exact Hv | apply He | exact Hsz].
Defined.

Lemma add_vertex_spec_witness :
  (∃ g', add_vertex abc_chain "A" tt = (Ok tt, g') ∧
         edge_exists g' "A" "B" = true ∧ _size g' = 3) ∧
  (∃ g', add_vertex abc_chain "D" tt = (Ok tt, g') ∧
         dict_get "D" (_vertices g') = Some (mkVertex "D" tt []) ∧
         _size g' = 4).
Proof.
  split.
  - destruct (proj1 (add_vertex_spec abc_chain "A" tt)
                (mkVertex "A" tt [("B", None)]))
      as (g' & Hadd & _ & _ & He & _ & Hsz & _); [reflexivity|].
    exists g'. repeat split; [exact Hadd | | exact Hsz].
    rewrite He. reflexivity.
  - destruct (proj2 (add_vertex_spec abc_chain "D" tt))
      as (g' & Hadd & Hget & _ & _ & _ & Hsz & _); [reflexivity|].
    exists g'. repeat split; [exact Hadd | exact Hget | exact Hsz].
Defined.

(** C6, as stated, fails: in a weighted graph a first call with weight 0
    raises and adds nothing, so a second call with weight 5 is not a no-op
    (it adds the edge), and a second call without a weight raises again. *)
Lemma add_edge_twice_counterexample :
  let g := abc true in
  let g1 := after (add_edge g "A" "B" (Some 0)) in
  vertex_exists g "A" = true ∧ vertex_exists g "B" = true ∧
  add_edge g1 "A" "B" (Some 5) ≠ (Ok tt, g1) ∧
  edge_exists g1 "A" "B" = false ∧
  edge_exists (after (add_edge g1 "A" "B" (Some 5))) "A" "B" = true ∧
  add_edge g1 "A" "B" None = (Raise (GraphException msg_no_weight), g1).
Proof.
  repeat split. intros Heq.
  apply (f_equal (λ c, edge_exists c.2 "A" "B")) in Heq.
  discriminate Heq.
Qed.

Lemma add_edge_succeeds_iff {A} (g : DirectedGraph A) a b w :
  vertex_exists g a = true → vertex_exists g b = true →
  (add_edge g a b w).1 = Ok tt ↔
  _weighted g = false ∨ truthy w = true ∨ edge_exists g a b = true.
Proof.
  unfold vertex_exists, add_edge, edge_exists. intros Ha Hb.
  rewrite Ha, Hb. simpl.
  apply dict_contains_get in Ha as [va Hva]. rewrite Hva.
  destruct (dict_contains b (adj_dict va)), (_weighted g), (truthy w);
    simpl; intuition congruence.
Qed.

Lemma add_edge_edge_exists {A} (g : DirectedGraph A) a b w :
  (add_edge g a b w).1 = Ok tt →
  edge_exists (add_edge g a b w).2 a b = true ∧
  vertex_exists (add_edge g a b w).2 a = true ∧
  vertex_exists (add_edge g a b w).2 b = true.
Proof.
  unfold add_edge, edge_exists, vertex_exists.
  destruct (dict_contains a (_vertices g)) eqn:Ha; simpl; [|done].
  destruct (dict_contains b (_vertices g)) eqn:Hb; simpl; [|done].
  destruct (dict_get a (_vertices g)) as [va|] eqn:Hva; [|done].
  destruct (dict_contains b (adj_dict va)) eqn:Hab; simpl.
  - rewrite Hva. done.
  - destruct (_weighted g && negb (truthy w)); simpl; [done|]. intros _.
    rewrite dict_get_set_eq. simpl. rewrite !dict_contains_set.
    rewrite Ha, Hb. repeat case_decide; done.
Qed.

(** C6, amended. Whenever the first call [add_edge a b w1] raises nothing
    (the graph is unweighted, or [w1] is a non-zero weight, or the edge was
    there already), a second call [add_edge a b w2], for any [w2], raises
    nothing and leaves the graph exactly as the first call left it. *)
Theorem add_edge_idempotent {A} (g : DirectedGraph A) (a b : string)
    (w1 w2 : weight) :
  vertex_exists g a = true → vertex_exists g b = true →
  (add_edge g a b w1).1 = Ok tt →
  add_edge (add_edge g a b w1).2 a b w2 = (Ok tt, (add_edge g a b w1).2).
Proof.
  intros _ _ Hok.
  destruct (add_edge_edge_exists g a b w1 Hok) as (He & Ha & Hb).
  revert He Ha Hb. generalize (add_edge g a b w1).2. intros g1 He Ha Hb.
  unfold add_edge, edge_exists, vertex_exists in *.
  rewrite Ha, Hb. simpl.
  destruct (dict_get a (_vertices g1)) as [va|]; [|done].
  by rewrite He.
Qed.

Lemma add_edge_idempotent_witness :
  let g1 := after (add_edge (abc true) "A" "B" (Some 1)) in
  add_edge g1 "A" "B" (Some 7) = (Ok tt, g1) ∧
  add_edge g1 "A" "B" None = (Ok tt, g1).
Proof.
  split.
  - apply (add_edge_idempotent (abc true) "A" "B" (Some 1) (Some 7));
      reflexivity.
  - apply (add_edge_idempotent (abc true) "A" "B" (Some 1) None);
      reflexivity.
Defined.

(** C7. In a weighted graph with vertices [a] and [b] and no edge from [a]
    to [b], [add_edge a b] without a weight and [add_edge a b 0] both raise
    the "must be supplied with a weight" [GraphException] (kind
    InvalidArgument) and leave the graph as it was, hence still without the
    edge. *)
Theorem add_edge_weight_required {A} (g : DirectedGraph A) (a b : string) :
  _weighted g = true →
  vertex_exists g a = true → vertex_exists g b = true →
  edge_exists g a b = false →
  add_edge g a b None = (Raise (GraphException msg_no_weight), g) ∧
  add_edge g a b (Some 0) = (Raise (GraphException msg_no_weight), g) ∧
  InvalidArgument (GraphException msg_no_weight) ∧
  edge_exists (add_edge g a b None).2 a b = false ∧
  edge_exists (add_edge g a b (Some 0)).2 a b = false.
Proof.
  intros Hw Ha Hb He.
  assert (∀ w, truthy w = false →
            add_edge g a b w = (Raise (GraphException msg_no_weight), g))
    as Hraise.
  { intros w Hfalsy. unfold add_edge, vertex_exists, edge_exists in *.
    rewrite Ha, Hb, Hw. simpl.
    destruct (dict_get a (_vertices g)) as [va|] eqn:Hva.
    - by rewrite He, Hfalsy.
    - apply dict_contains_get in Ha as [? ?]. congruence. }
  rewrite !Hraise by done. repeat split; try done. by left.
Qed.

Lemma add_edge_weight_required_witness :
  add_edge (abc true) "A" "B" None =
    (Raise (GraphException msg_no_weight), abc true) ∧
  add_edge (abc true) "A" "B" (Some 0) =
    (Raise (GraphException msg_no_weight), abc true).
Proof.
  destruct (add_edge_weight_required (abc true) "A" "B")
    as (H1 & H2 & _); try reflexivity.
  split; [exact H1 | exact H2].
Defined.

(** ** The representation invariant *)

Section invariant_facts.
Context {A : Type}.
Implicit Types (g : DirectedGraph A).

Lemma closed_spec g : closed g = true ↔ adj_closed g.
Proof.
  unfold closed, adj_closed. rewrite forallb_forall. split.
  - intros Hall u vert v Hu Hv.
    assert (u ∈ dict_keys (_vertices g)) as Hin
      by (apply dict_keys_get; eauto).
    apply list_elem_of_In, Hall in Hin. rewrite Hu in Hin.
    rewrite forallb_forall in Hin.
    apply dict_contains_get, Hin, list_elem_of_In. by apply dict_keys_get.
  - intros Hall u _. destruct (dict_get u (_vertices g)) as [vert|] eqn:Hu;
      [|done].
    apply forallb_forall. intros v Hv%list_elem_of_In%dict_keys_get.
    apply dict_contains_get. eauto.
Qed.

Lemma adj_closed_new_graph (weighted : bool) :
  adj_closed (@new_graph A weighted).
Proof. intros u vert v Hu. done. Qed.

Lemma adj_closed_add_vertex g identifier value :
  adj_closed g → adj_closed (add_vertex g identifier value).2.
Proof.
  intros Hg u vert v. unfold add_vertex.
  destruct (dict_get identifier (_vertices g)) as [old|] eqn:Hold; simpl;
    rewrite !dict_get_set.
  - destruct (decide (u = identifier)) as [->|Hu].
    + intros [= <-]. simpl. intros Hv. case_decide; [done|]. eauto.
    + intros Hget Hv. case_decide; [done|]. eauto.
  - destruct (decide (u = identifier)) as [->|Hu].
    + intros [= <-]. simpl. by intros [? ?].
    + intros Hget Hv. case_decide; [done|]. eauto.
Qed.

Lemma adj_closed_remove_vertex g identifier :
  adj_closed g → adj_closed (remove_vertex g identifier).2.
Proof.
  intros Hg u vert v.
  destruct (remove_vertex g identifier) as [r g'] eqn:Hrm.
  assert (r = Ok tt ∨ g' = g) as [-> | ->].
  { revert Hrm. unfold remove_vertex. destruct (negb _); intros [= <- <-];
      auto. }
  - simpl. rewrite !(remove_vertex_get g identifier g') by done.
    case_decide; [done|].
    destruct (dict_get u (_vertices g)) as [vert0|] eqn:Hu; [|done].
    intros [= <-]. simpl. rewrite dict_get_del.
    case_decide; [by intros [? ?]|]. intros Hv.
    destruct (Hg u vert0 v Hu Hv) as [w ->]. simpl. eauto.
  - apply Hg.
Qed.

Lemma adj_closed_add_edge g a b w :
  adj_closed g → adj_closed (add_edge g a b w).2.
Proof.
  intros Hg. unfold add_edge.
  destruct (dict_contains a (_vertices g)) eqn:Ha; simpl; [|done].
  destruct (dict_contains b (_vertices g)) eqn:Hb; simpl; [|done].
  destruct (dict_get a (_vertices g)) as [va|] eqn:Hva; [|done].
  destruct (dict_contains b (adj_dict va)); simpl; [done|].
  destruct (_weighted g && negb (truthy w)); simpl; [done|].
  intros u vert v. simpl. rewrite !dict_get_set.
  destruct (decide (u = a)) as [->|Hu].
  - intros [= <-]. simpl. rewrite dict_get_set. intros Hv.
    destruct (decide (v = a)); [done|].
    destruct (decide (v = b)) as [->|]; [|eauto].
    by apply dict_contains_get.
  - intros Hget Hv. case_decide; [done|]. eauto.
Qed.

Lemma adj_closed_remove_edge g a b :
  adj_closed g → adj_closed (remove_edge g a b).2.
Proof.
  intros Hg. unfold remove_edge.
  destruct (dict_get a (_vertices g)) as [va|] eqn:Hva; [|done].
  destruct (dict_contains b (adj_dict va)); simpl; [|done].
  intros u vert v. simpl. rewrite !dict_get_set.
  destruct (decide (u = a)) as [->|Hu].
  - intros [= <-]. simpl. rewrite dict_get_del. intros Hv.
    case_decide; [done|]. case_decide; [by destruct Hv|]. eauto.
  - intros Hget Hv. case_decide; [done|]. eauto.
Qed.
End invariant_facts.

(** Every graph built by the public operations keeps its adjacency keys
    among its vertices. *)
Lemma closed_preserved {A} (g : DirectedGraph A) :
  closed g = true →
  (∀ identifier value, closed (add_vertex g identifier value).2 = true) ∧
  (∀ identifier, closed (remove_vertex g identifier).2 = true) ∧
  (∀ a b w, closed (add_edge g a b w).2 = true) ∧
  (∀ a b, closed (remove_edge g a b).2 = true).
Proof.
  rewrite closed_spec. intros Hg. repeat split; intros; apply closed_spec.
  - by apply adj_closed_add_vertex.
  - by apply adj_closed_remove_vertex.
  - by apply adj_closed_add_edge.
  - by apply adj_closed_remove_edge.
Qed.

Lemma closed_new_graph {A} (weighted : bool) :
  closed (@new_graph A weighted) = true.
Proof. reflexivity. Qed.

Lemma built_closed {A} (g : DirectedGraph A) : built g → closed g = true.
Proof.
  induction 1 as [w|g i v _ IH|g i _ IH|g a b w _ IH|g a b _ IH].
  - apply closed_new_graph.
  - by apply closed_preserved.
  - by apply closed_preserved.
  - by apply closed_preserved.
  - by apply closed_preserved.
Qed.

(** ** Reachability *)

Section search_facts.
Context {A : Type} (g : DirectedGraph A).

Lemma edge_adj u vert v :
  dict_get u (_vertices g) = Some vert →
  edge g u v ↔ v ∈ dict_keys (adj_dict vert).
Proof.
  intros Hu. rewrite dict_keys_get. unfold edge. split.
  - intros (vert' & Hu' & Hv). congruence.
  - eauto.
Qed.

(** A set that contains [s] and is closed under edges contains all that
    is reachable from [s]. *)
Lemma path_closed (visited : gset string) s v :
  s ∈ visited →
  (∀ u w, u ∈ visited → edge g u w → w ∈ visited) →
  path g s v → v ∈ visited.
Proof. intros Hs Hcl Hp. induction Hp; eauto. Qed.

Lemma search_inv_done s visited v :
  search_inv g s visited [] → v ∈ visited ↔ path g s v.
Proof.
  intros (Hs & Hcl & Hp & _). split; [by auto|].
  apply path_closed.
  - destruct Hs as [?|?%elem_of_nil]; done.
  - intros u w Hu He. by destruct (Hcl u w Hu He) as [?|?%elem_of_nil].
Qed.

Lemma search_inv_init s :
  is_Some (dict_get s (_vertices g)) → search_inv g s ∅ [s].
Proof.
  intros Hs. repeat split.
  - right. by left.
  - intros u v Hu. by apply elem_of_empty in Hu.
  - intros v [Hv|Hv%list_elem_of_singleton].
    + by apply elem_of_empty in Hv.
    + subst. apply rtc_refl.
  - by intros v ->%list_elem_of_singleton.
Qed.

(** Dropping a pending identifier that was visited before. *)
Lemma search_inv_skip s visited v pending :
  v ∈ visited → search_inv g s visited (v :: pending) →
  search_inv g s visited pending.
Proof.
  intros Hv (Hs & Hcl & Hp & Hex). repeat split.
  - destruct Hs as [?|[->|?]%elem_of_cons]; auto.
  - intros u w Hu He.
    destruct (Hcl u w Hu He) as [?|[->|?]%elem_of_cons]; auto.
  - intros w [?|?]; apply Hp; auto. right. by right.
  - intros w Hw. apply Hex. by right.
Qed.

(** Visiting [v]: its neighbours become pending, all of them or all
    that are not visited. *)
Lemma search_inv_visit s visited v vert pending pending' :
  adj_closed g →
  dict_get v (_vertices g) = Some vert →
  (∀ w, w ∈ pending → w ∈ pending') →
  (∀ w, w ∈ pending' →
        w ∈ pending ∨ w ∈ dict_keys (adj_dict vert)) →
  (∀ w, w ∈ dict_keys (adj_dict vert) →
        w ∈ pending' ∨ w ∈ visited ∪ {[v]}) →
  search_inv g s visited (v :: pending) →
  search_inv g s (visited ∪ {[v]}) pending'.
Proof.
  intros Hg Hv Hold Hpend Hnew (Hs & Hcl & Hp & Hex).
  assert (∀ w, w ∈ visited ∨ w ∈ v :: pending →
               w ∈ visited ∪ {[v]} ∨ w ∈ pending') as Hkeep.
  { intros w [?|[->|?]%elem_of_cons]; [left|left|right]; auto;
      apply elem_of_union; auto. right. by apply elem_of_singleton. }
  repeat split.
  - by apply Hkeep.
  - intros u w [Hu|Hu%elem_of_singleton]%elem_of_union He.
    + by apply Hkeep, (Hcl u).
    + subst u. apply (edge_adj _ _ _ Hv) in He.
      destruct (Hnew w He); auto.
  - intros w [[Hw|Hw%elem_of_singleton]%elem_of_union|Hw].
    + apply Hp. auto.
    + subst w. apply Hp. right. by left.
    + apply Hpend in Hw as [Hw|Hw].
      * apply Hp. right. by right.
      * eapply rtc_r; [apply Hp; right; by left|].
        by apply (edge_adj _ _ _ Hv).
  - intros w Hw. apply Hpend in Hw as [Hw|Hw].
    + apply Hex. by right.
    + eapply Hg; [done|]. by apply dict_keys_get.
Qed.

Lemma unvisited_visit visited v :
  is_Some (dict_get v (_vertices g)) → v ∉ visited →
  (unvisited g (visited ∪ {[v]}) < unvisited g visited)%nat.
Proof.
  intros Hv Hnv. unfold unvisited. apply subset_size.
  apply dict_keys_get in Hv.
  rewrite <- difference_difference_l_L.
  apply subset_difference_elem_of, elem_of_difference.
  split; [by apply elem_of_list_to_set | done].
Qed.

Lemma unvisited_revisit visited v :
  v ∈ visited → unvisited g (visited ∪ {[v]}) = unvisited g visited.
Proof.
  intros Hv. unfold unvisited. f_equal. f_equal.
  rewrite (comm_L (∪)). apply subseteq_union_1_L.
  by apply singleton_subseteq_l.
Qed.
End search_facts.

(** ** depth_first_search *)

Section dfs_facts.
Context {A : Type} (g : DirectedGraph A).

Lemma elem_of_push_all (ks : list string) (stack : Stack) x :
  x ∈ fold_left (λ stack vertex, stack_push vertex stack) ks stack ↔
  x ∈ ks ∨ x ∈ stack.
Proof.
  revert stack. induction ks as [|k ks IH]; intros stack; simpl.
  - rewrite elem_of_nil. tauto.
  - rewrite IH. unfold stack_push. rewrite !elem_of_cons. tauto.
Qed.

(** An iteration either visits a new vertex of the graph or shortens the
    stack. *)
Lemma dfs_body_decreases target st st' :
  dfs_body g target st = inl st' →
  (unvisited g st'.1 < unvisited g st.1)%nat ∨
  (unvisited g st'.1 = unvisited g st.1 ∧ length st'.2 < length st.2)%nat.
Proof.
  destruct st as [visited [|v stack]]; simpl; [done|].
  destruct (decide (v ∈ visited)) as [Hv|Hv].
  - intros [= <-]. simpl. right. split; [done | lia].
  - destruct (decide (v = target)); [done|].
    destruct (dict_get v (_vertices g)) as [vert|] eqn:Hget; [|done].
    intros [= <-]. simpl. left. by apply unvisited_visit.
Qed.

Lemma dfs_loop_total target st :
  ∃ r n, ∀ m, (n ≤ m)%nat → run_loop (dfs_body g target) m st = Some r.
Proof.
  apply (run_loop_total _ (λ st, unvisited g st.1) (λ st, length st.2)).
  apply dfs_body_decreases.
Qed.

Lemma dfs_body_inv s t st :
  adj_closed g → dfs_inv g s t st →
  match dfs_body g t st with
  | inl st' => dfs_inv g s t st'
  | inr r => ∃ b, r = Ok b ∧ (b = true ↔ path g s t)
  end.
Proof.
  intros Hg [Hinv Ht]. destruct st as [visited [|v stack]]; simpl in *.
  - exists false. split; [done|]. split; [done|].
    intros Hp. by apply (search_inv_done g s visited t Hinv) in Hp.
  - destruct (decide (v ∈ visited)) as [Hv|Hv].
    + split; [|done]. by apply (search_inv_skip g s visited v).
    + destruct (decide (v = t)) as [->|Hvt].
      * exists true. split; [done|]. split; [|done]. intros _.
        destruct Hinv as (_ & _ & Hp & _). apply Hp. right. by left.
      * destruct (dict_get v (_vertices g)) as [vert|] eqn:Hget.
        -- split; simpl.
           ++ apply (search_inv_visit g s visited v vert stack);
                try done; intros w; rewrite elem_of_push_all; tauto.
           ++ intros [?|?%elem_of_singleton]%elem_of_union; done.
        -- destruct Hinv as (_ & _ & _ & Hex).
           destruct (Hex v) as [? ?]; [by left | congruence].
Qed.

Lemma dfs_loop_spec s t :
  adj_closed g → is_Some (dict_get s (_vertices g)) →
  ∃ b n,
    (∀ m, (n ≤ m)%nat →
       run_loop (dfs_body g t) m (∅, stack_push s []) = Some (Ok b)) ∧
    (b = true ↔ path g s t).
Proof.
  intros Hg Hs.
  destruct (dfs_loop_total t (∅, stack_push s [])) as (r & n & Hn).
  assert (∃ b, r = Ok b ∧ (b = true ↔ path g s t)) as (b & -> & Hb).
  { apply (run_loop_inv (dfs_body g t) (dfs_inv g s t)
             (λ r, ∃ b, r = Ok b ∧ (b = true ↔ path g s t))
             (λ st Hst, dfs_body_inv s t st Hg Hst)
             n (∅, stack_push s [])).
    - split; [by apply search_inv_init | apply not_elem_of_empty].
    - by apply Hn. }
  by exists b, n.
Qed.
End dfs_facts.

(** C2. On a graph built by the public operations (every adjacency key is a
    vertex), with [s] and [t] present, [depth_first_search s t] returns a
    Boolean, for every fuel large enough, and this Boolean is true exactly
    when there is a directed path, possibly of length zero, from [s] to [t];
    in particular it is true when [s = t]. *)
Theorem depth_first_search_correct {A} (g : DirectedGraph A) (s t : string) :
  closed g = true → vertex_exists g s = true → vertex_exists g t = true →
  ∃ b n,
    (∀ m, (n ≤ m)%nat → depth_first_search m g s t = Some (Ok b)) ∧
    (b = true ↔ path g s t) ∧
    (s = t → b = true).
Proof.
  intros Hg%closed_spec Hs Ht.
  destruct (dfs_loop_spec g s t Hg) as (b & n & Hn & Hb).
  { by apply vertex_exists_get. }
  exists b, n. split; [|split; [done|]].
  - intros m Hm. unfold depth_first_search, vertex_exists in *.
    rewrite Hs, Ht. simpl. by apply Hn.
  - intros ->. apply Hb. apply rtc_refl.
Qed.

Lemma depth_first_search_correct_witness :
  ∃ b n,
    (∀ m, (n ≤ m)%nat →
       depth_first_search m abc_chain "A" "C" = Some (Ok b)) ∧
    (b = true ↔ path abc_chain "A" "C").
Proof.
  destruct (depth_first_search_correct abc_chain "A" "C")
    as (b & n & Hn & Hb & _); try reflexivity.
  exists b, n. split; [exact Hn | exact Hb].
Defined.

(** A search for the source itself succeeds at the first iteration. *)
Lemma depth_first_search_self {A} (g : DirectedGraph A) (s : string)
    (m : nat) :
  vertex_exists g s = true →
  depth_first_search (Datatypes.S m) g s s = Some (Ok true).
Proof.
  unfold vertex_exists, depth_first_search. intros ->. simpl.
  rewrite decide_False by apply not_elem_of_empty.
  by rewrite decide_True.
Qed.

(** The scenario of the specification: edges A->B and B->C. *)
Example depth_first_search_scenario :
  depth_first_search 4 abc_chain "A" "C" = Some (Ok true) ∧
  depth_first_search 4 abc_chain "C" "A" = Some (Ok false) ∧
  depth_first_search 4 abc_chain "B" "B" = Some (Ok true).
Proof. repeat split; reflexivity. Qed.

(** ** breadth_first_search *)

Section bfs_facts.
Context {A : Type} (g : DirectedGraph A).

Lemma fold_enqueue (visited : gset string) (ks : list string) (q : Queue) :
  fold_left
    (λ q vertex,
       if decide (vertex ∈ visited) then q else queue_enqueue vertex q)
    ks q
  = q ++ filter (λ w, w ∉ visited) ks.
Proof.
  revert q. induction ks as [|k ks IH]; intros q.
  - simpl. by rewrite filter_nil, app_nil_r.
  - change (fold_left ?f (k :: ks) q) with (fold_left f ks (f q k)).
    rewrite IH, filter_cons. simpl.
    destruct (decide (k ∈ visited)) as [Hk|Hk].
    + by rewrite decide_False by auto.
    + rewrite decide_True by done. unfold queue_enqueue.
      by rewrite <- app_assoc.
Qed.

(** What one iteration does: it dequeues [v], marks it visited and
    enqueues the neighbours of [v] that are not visited. *)
Lemma bfs_body_step target st st' :
  bfs_body g target st = inl st' →
  ∃ v rest vert,
    bfs_queue st = v :: rest ∧
    dict_get v (_vertices g) = Some vert ∧
    bfs_visited st' = bfs_visited st ∪ {[v]} ∧
    bfs_queue st' =
      rest ++ filter (λ w, w ∉ bfs_visited st ∪ {[v]})
                (dict_keys (adj_dict vert)).
Proof.
  destruct st as [[visited [|v rest]] found]; simpl.
  - by destruct (truthy_id target).
  - destruct (dict_get v (_vertices g)) as [vert|] eqn:Hget; [|done].
    intros [= <-]. exists v, rest, vert.
    unfold bfs_queue, bfs_visited. simpl. by rewrite fold_enqueue.
Qed.

Lemma revisits_new (visited : gset string) (ks : list string) :
  revisits visited (filter (λ w, w ∉ visited) ks) = 0%nat.
Proof.
  unfold revisits. induction ks as [|k ks IH]; [done|].
  rewrite filter_cons. destruct (decide (k ∉ visited)); [|done].
  rewrite filter_cons. by rewrite decide_False by auto.
Qed.

Lemma revisits_app (visited : gset string) (q1 q2 : list string) :
  revisits visited (q1 ++ q2) =
  (revisits visited q1 + revisits visited q2)%nat.
Proof. unfold revisits. by rewrite filter_app, length_app. Qed.

(** An iteration either visits a new vertex of the graph or consumes a
    queue entry that was visited before. *)
Lemma bfs_body_decreases target st st' :
  bfs_body g target st = inl st' →
  (unvisited g (bfs_visited st') < unvisited g (bfs_visited st))%nat ∨
  (unvisited g (bfs_visited st') = unvisited g (bfs_visited st) ∧
   revisits (bfs_visited st') (bfs_queue st') <
   revisits (bfs_visited st) (bfs_queue st))%nat.
Proof.
  intros (v & rest & vert & Hq & Hget & -> & ->)%bfs_body_step.
  rewrite Hq. destruct (decide (v ∈ bfs_visited st)) as [Hv|Hv].
  - right. split; [by apply unvisited_revisit|].
    rewrite revisits_app, revisits_new.
    assert (bfs_visited st ∪ {[v]} = bfs_visited st) as ->.
    { rewrite (comm_L (∪)). apply subseteq_union_1_L.
      by apply singleton_subseteq_l. }
    unfold revisits. rewrite filter_cons, decide_True by done. simpl. lia.
  - left. apply unvisited_visit; eauto.
Qed.

Lemma bfs_loop_total target st :
  ∃ r n, ∀ m, (n ≤ m)%nat → run_loop (bfs_body g target) m st = Some r.
Proof.
  apply (run_loop_total _
           (λ st, unvisited g (bfs_visited st))
           (λ st, revisits (bfs_visited st) (bfs_queue st))).
  apply bfs_body_decreases.
Qed.

Lemma bfs_body_inv s target st :
  adj_closed g → bfs_inv g s st →
  match bfs_body g target st with
  | inl st' => bfs_inv g s st'
  | inr r => bfs_post g s target r
  end.
Proof.
  intros Hg Hinv.
  destruct (bfs_body g target st) as [st'|r] eqn:Hbody.
  - destruct (bfs_body_step _ _ _ Hbody)
      as (v & rest & vert & Hq & Hget & Hvis & Hq').
    unfold bfs_inv in *. rewrite Hq in Hinv. rewrite Hvis, Hq'.
    apply (search_inv_visit g s _ v vert rest); try done.
    + intros w Hw. apply elem_of_app. by left.
    + intros w [?|[_ ?]%list_elem_of_filter]%elem_of_app; auto.
    + intros w Hw.
      destruct (decide (w ∈ bfs_visited st ∪ {[v]})); [by right|].
      left. apply elem_of_app. right. by apply list_elem_of_filter.
  - destruct st as [[visited [|v rest]] found]; simpl in Hbody.
    + unfold bfs_inv, bfs_visited, bfs_queue in Hinv. simpl in Hinv.
      exists (elements visited). split; [apply NoDup_elements|]. split.
      * intros v. rewrite elem_of_elements.
        by apply search_inv_done.
      * destruct (truthy_id target); injection Hbody as <-; eauto.
    + destruct (dict_get v (_vertices g)) as [vert|] eqn:Hget; [done|].
      destruct Hinv as (_ & _ & _ & Hex).
      destruct (Hex v) as [? ?]; [by left | congruence].
Qed.

Lemma bfs_loop_spec s target :
  adj_closed g → is_Some (dict_get s (_vertices g)) →
  ∃ r n,
    (∀ m, (n ≤ m)%nat →
       run_loop (bfs_body g target) m (bfs_init s) = Some r) ∧
    bfs_post g s target r.
Proof.
  intros Hg Hs.
  destruct (bfs_loop_total target (bfs_init s)) as (r & n & Hn).
  exists r, n. split; [done|].
  apply (run_loop_inv (bfs_body g target) (bfs_inv g s)
           (bfs_post g s target)
           (λ st Hst, bfs_body_inv s target st Hg Hst)
           n (bfs_init s)).
  - by apply search_inv_init.
  - by apply Hn.
Qed.

(** A falsy target is the same as no target. *)
Lemma bfs_falsy_target (m : nat) (s : string) :
  breadth_first_search m g s (Some "") = breadth_first_search m g s None.
Proof.
  unfold breadth_first_search. destruct (negb _); [done|]. simpl.
  generalize (bfs_init s). induction m as [|m IH]; intros st; [done|].
  simpl. destruct st as [[visited [|v rest]] found]; simpl; [done|].
  destruct (dict_get v (_vertices g)); [|done]. apply IH.
Qed.

Lemma bfs_no_target_spec s :
  adj_closed g → vertex_exists g s = true →
  ∃ l n,
    (∀ m, (n ≤ m)%nat →
       breadth_first_search m g s None = Some (Ok (Reachable l))) ∧
    NoDup l ∧ (∀ v, v ∈ l ↔ path g s v).
Proof.
  intros Hg Hs.
  destruct (bfs_loop_spec s None Hg) as (r & n & Hn & l & Hnd & Hl & ->).
  { by apply vertex_exists_get. }
  exists l, n. split; [|done]. intros m Hm.
  unfold breadth_first_search, vertex_exists in *. rewrite Hs. simpl.
  by apply Hn.
Qed.
End bfs_facts.

(** C3. On a graph built by the public operations, with [s] present,
    [breadth_first_search s] without a target returns, for every fuel large
    enough, a list without repetition whose elements are exactly the
    vertices reachable from [s] by directed paths, [s] included. *)
Theorem breadth_first_search_reachable {A} (g : DirectedGraph A) (s : string) :
  closed g = true → vertex_exists g s = true →
  ∃ l n,
    (∀ m, (n ≤ m)%nat →
       breadth_first_search m g s None = Some (Ok (Reachable l))) ∧
    NoDup l ∧
    (∀ v, v ∈ l ↔ path g s v) ∧
    s ∈ l.
Proof.
  intros Hg%closed_spec Hs.
  destruct (bfs_no_target_spec g s Hg Hs) as (l & n & Hn & Hnd & Hl).
  exists l, n. split; [done|]. split; [done|]. split; [done|].
  apply Hl, rtc_refl.
Qed.

Lemma breadth_first_search_reachable_witness :
  ∃ l n,
    (∀ m, (n ≤ m)%nat →
       breadth_first_search m abc_chain "B" None = Some (Ok (Reachable l))) ∧
    (∀ v, v ∈ l ↔ path abc_chain "B" v).
Proof.
  destruct (breadth_first_search_reachable abc_chain "B")
    as (l & n & Hn & _ & Hl & _); try reflexivity.
  exists l, n. split; [exact Hn | exact Hl].
Defined.

(** C10. With [s] present, [breadth_first_search s ""] is
    [breadth_first_search s] without a target, whatever the fuel and whether
    or not a vertex named [""] exists; on a graph built by the public
    operations it therefore raises nothing and returns the plain list of the
    vertices reachable from [s], not a pair. *)
Theorem breadth_first_search_falsy_target {A} (g : DirectedGraph A)
    (s : string) :
  closed g = true → vertex_exists g s = true →
  (∀ m, breadth_first_search m g s (Some "") =
        breadth_first_search m g s None) ∧
  ∃ l n,
    (∀ m, (n ≤ m)%nat →
       breadth_first_search m g s (Some "") = Some (Ok (Reachable l))) ∧
    (∀ v, v ∈ l ↔ path g s v).
Proof.
  intros Hg%closed_spec Hs. split; [intros m; apply bfs_falsy_target|].
  destruct (bfs_no_target_spec g s Hg Hs) as (l & n & Hn & _ & Hl).
  exists l, n. split; [|done].
  intros m Hm. rewrite bfs_falsy_target. by apply Hn.
Qed.

Lemma breadth_first_search_falsy_target_witness :
  vertex_exists abc_chain "" = false ∧
  (∀ m, breadth_first_search m abc_chain "A" (Some "") =
        breadth_first_search m abc_chain "A" None) ∧
  ∃ l n,
    ∀ m, (n ≤ m)%nat →
      breadth_first_search m abc_chain "A" (Some "") =
      Some (Ok (Reachable l)).
Proof.
  destruct (breadth_first_search_falsy_target abc_chain "A")
    as (Heq & l & n & Hn & _); try reflexivity.
  split; [reflexivity|]. split; [exact Heq|]. exists l, n. exact Hn.
Defined.

(** C8, as stated, fails: with edges A->B, A->C and B->C, the search from A
    enqueues C while handling A and again while handling B, because C joins
    the visited set only when it is dequeued; after two iterations the queue
    holds C twice. *)
Lemma bfs_enqueues_twice_counterexample :
  closed abc_triangle = true ∧
  bfs_queue <$> loop_state (bfs_body abc_triangle None) 1 (bfs_init "A")
    = Some ["B"; "C"] ∧
  bfs_queue <$> loop_state (bfs_body abc_triangle None) 2 (bfs_init "A")
    = Some ["C"; "C"] ∧
  ¬ (∀ n st, loop_state (bfs_body abc_triangle None) n (bfs_init "A")
             = Some st → NoDup (bfs_queue st)).
Proof.
  repeat split. intros Hall.
  destruct (loop_state (bfs_body abc_triangle None) 2 (bfs_init "A"))
    as [st|] eqn:Hst; [|discriminate Hst].
  specialize (Hall 2%nat st Hst).
  assert (bfs_queue st = ["C"; "C"]) as Hq.
  { apply (f_equal (fmap bfs_queue)) in Hst. vm_compute in Hst.
    by injection Hst. }
  rewrite Hq in Hall. apply NoDup_cons in Hall as [Hin _].
  apply Hin. by left.
Qed.

(** C8, amended. An identifier is never enqueued once it has been dequeued:
    if the iteration that starts in state [st] dequeues [v], then the
    iteration that starts [n] iterations later ([n] may be zero) appends to
    the queue only identifiers that differ from [v], are outside the visited
    set at that time and differ from the identifier it dequeues. An
    identifier that was not dequeued yet may be enqueued again. *)
Theorem bfs_no_enqueue_after_dequeue {A} (g : DirectedGraph A)
    (target : option string) (st st_n st' : bfs_state) (v : string)
    (rest : Queue) (n : nat) :
  bfs_queue st = v :: rest →
  loop_state (bfs_body g target) n st = Some st_n →
  bfs_body g target st_n = inl st' →
  ∃ u pending new,
    bfs_queue st_n = u :: pending ∧
    bfs_queue st' = pending ++ new ∧
    (v ∉ new) ∧
    (∀ w, w ∈ new → (w ∉ bfs_visited st_n) ∧ w ≠ u).
Proof.
  intros Hq Hrun Hbody.
  assert (v ∈ bfs_visited st_n ∨ ∃ rest', bfs_queue st_n = v :: rest')
    as Hv.
  { destruct n as [|n]; simpl in Hrun.
    - injection Hrun as <-. eauto.
    - destruct (bfs_body g target st) as [st1|] eqn:Hst; [|done]. left.
      apply (loop_state_inv (bfs_body g target)
               (λ st, v ∈ bfs_visited st)) in Hrun; [done | | ].
      + intros s1 s2 Hs1 (? & ? & ? & _ & _ & -> & _)%bfs_body_step.
        apply elem_of_union. by left.
      + apply bfs_body_step in Hst as (v' & ? & ? & Hq' & _ & -> & _).
        rewrite Hq in Hq'. injection Hq' as <- <-.
        apply elem_of_union. right. by apply elem_of_singleton. }
  apply bfs_body_step in Hbody as (u & pending & vert & Hqn & _ & _ & Hq').
  exists u, pending,
    (filter (λ w, w ∉ bfs_visited st_n ∪ {[u]})
       (dict_keys (adj_dict vert))).
  split; [done|]. split; [done|]. split.
  - intros [Hin _]%list_elem_of_filter. apply Hin, elem_of_union.
    destruct Hv as [?|[rest' Hv]]; [by left|].
    rewrite Hqn in Hv. injection Hv as -> _.
    right. by apply elem_of_singleton.
  - intros w [Hw _]%list_elem_of_filter. split.
    + intros ?. apply Hw, elem_of_union. by left.
    + intros ->. apply Hw, elem_of_union. right. by apply elem_of_singleton.
Qed.

Lemma bfs_no_enqueue_after_dequeue_witness :
  ∃ u pending new,
    bfs_queue (∅ ∪ {["A"]}, ["B"; "C"], false) = u :: pending ∧
    bfs_queue (∅ ∪ {["A"]} ∪ {["B"]}, ["C"; "C"], false)
      = pending ++ new ∧
    ("A" ∉ new) ∧
    (∀ w, w ∈ new →
       (w ∉ bfs_visited (∅ ∪ {["A"]}, ["B"; "C"], false)) ∧ w ≠ u).
Proof.
  apply (bfs_no_enqueue_after_dequeue abc_triangle None
           (bfs_init "A") _ _ "A" [] 1); reflexivity.
Defined.

(** ** min_path *)

Section min_path_facts.
Context {A : Type} (g : DirectedGraph A).

Lemma pq_min_in (best : Z * string) (q : PriorityQueue) :
  pq_min best q ∈ best :: q.
Proof.
  revert best. induction q as [|e q IH]; intros best; simpl.
  - by left.
  - destruct (e.1 <? best.1).
    + right. apply IH.
    + pose proof (IH best) as [->|?]%elem_of_cons;
        [left|right; right]; done.
Qed.

Lemma pq_remove_length (e : Z * string) (q : PriorityQueue) :
  e ∈ q → Datatypes.S (length (pq_remove e q)) = length q.
Proof.
  induction q as [|e' q IH]; simpl.
  - by intros ?%elem_of_nil.
  - intros Hin. destruct (decide (e = e')) as [->|Hne]; [done|]. simpl.
    rewrite IH; [done|]. by apply elem_of_cons in Hin as [?|?].
Qed.

Lemma pq_dequeue_length (q q' : PriorityQueue) (e : Z * string) :
  pq_dequeue q = Some (e, q') → Datatypes.S (length q') = length q.
Proof.
  destruct q as [|e0 q0]; [done|]. unfold pq_dequeue.
  pose proof (pq_remove_length _ _ (pq_min_in e0 q0)) as Hlen.
  intros [= <- <-]. exact Hlen.
Qed.

Lemma dict_keys_set_absent (d : dict Z) (k : string) (v : Z) :
  dict_get k d = None →
  (list_to_set (dict_keys (dict_set k v d)) : gset string) =
  list_to_set (dict_keys d) ∪ {[k]}.
Proof.
  intros Hk. rewrite dict_set_absent by done. unfold dict_keys.
  rewrite fmap_app. simpl. apply list_to_set_snoc_L.
Qed.

(** An iteration either finalizes a new vertex of the graph or shortens
    the priority queue. *)
Lemma mp_body_decreases st st' :
  mp_body g st = inl st' →
  (mp_unvisited g st' < mp_unvisited g st)%nat ∨
  (mp_unvisited g st' = mp_unvisited g st ∧
   mp_pending st' < mp_pending st)%nat.
Proof.
  destruct st as [visited pq]. unfold mp_body.
  destruct (pq_dequeue pq) as [[[d v] pq']|] eqn:Hdq; [|done].
  apply pq_dequeue_length in Hdq.
  destruct (dict_contains v visited) eqn:Hc; simpl.
  - intros [= <-]. right. unfold mp_pending. simpl. split; [done | lia].
  - destruct (dict_get v (_vertices g)) as [vert|] eqn:Hget; [|done].
    destruct (mp_enqueue_adj d (adj_dict vert) pq'); [|done].
    intros [= <-]. left. unfold mp_unvisited. simpl.
    apply dict_contains_false in Hc.
    rewrite dict_keys_set_absent by done.
    apply unvisited_visit; [eauto|].
    rewrite elem_of_list_to_set, dict_keys_get, Hc. by intros [? ?].
Qed.

Lemma mp_loop_total st :
  ∃ r n, ∀ m, (n ≤ m)%nat → run_loop (mp_body g) m st = Some r.
Proof.
  apply (run_loop_total _ (mp_unvisited g) mp_pending).
  apply mp_body_decreases.
Qed.

Lemma min_path_loop_total s :
  ∃ r n, ∀ m, (n ≤ m)%nat → min_path_loop m g s = Some r.
Proof.
  unfold min_path_loop.
  destruct (negb (_weighted g)); [by eexists _, 0%nat|].
  destruct (negb (dict_contains s _)); [by eexists _, 0%nat|].
  apply mp_loop_total.
Qed.

Lemma min_path_total s :
  ∃ r n, ∀ m, (n ≤ m)%nat → min_path m g s = Some r.
Proof.
  destruct (min_path_loop_total s) as (r & n & Hn).
  unfold min_path.
  destruct r as [visited|e]; eexists _, n; intros m Hm;
    by rewrite (Hn m Hm).
Qed.

(** A call of [min_path] that raises nothing returns [None]. *)
Lemma min_path_returns_none (m : nat) (s : string)
    (r : option (list string * dict Z)) :
  min_path m g s = Some (Ok r) → r = None.
Proof.
  unfold min_path. destruct (min_path_loop m g s) as [[?|?]|]; congruence.
Qed.

Lemma depth_first_search_total s t :
  ∃ r n, ∀ m, (n ≤ m)%nat → depth_first_search m g s t = Some r.
Proof.
  unfold depth_first_search.
  destruct (negb (dict_contains s _)); [by eexists _, 0%nat|].
  destruct (negb (dict_contains t _)); [by eexists _, 0%nat|].
  apply dfs_loop_total.
Qed.

Lemma breadth_first_search_total s target :
  ∃ r n, ∀ m, (n ≤ m)%nat → breadth_first_search m g s target = Some r.
Proof.
  unfold breadth_first_search.
  destruct (negb (dict_contains s _)); [by eexists _, 0%nat|].
  destruct (truthy_id target && _); [by eexists _, 0%nat|].
  apply bfs_loop_total.
Qed.
End min_path_facts.

(** C9. On every graph, whatever its adjacency mappings hold, each of the
    three searches produces an outcome (a value or an exception) for every
    fuel large enough: the loops of [depth_first_search],
    [breadth_first_search] and [min_path] all terminate. *)
Theorem searches_terminate {A} (g : DirectedGraph A) (s t : string)
    (target : option string) :
  (∃ r n, ∀ m, (n ≤ m)%nat → depth_first_search m g s t = Some r) ∧
  (∃ r n, ∀ m, (n ≤ m)%nat →
            breadth_first_search m g s target = Some r) ∧
  (∃ r n, ∀ m, (n ≤ m)%nat → min_path m g s = Some r).
Proof.
  split; [|split].
  - apply depth_first_search_total.
  - apply breadth_first_search_total.
  - apply min_path_total.
Qed.

(** C1 does not hold of the code: the body of [min_path] ends with its
    loop, so the call returns [None] and no pair. On the scenario of the
    specification (edges A->B (1), B->C (2), A->C (5), source A) the loop
    does end with the distances A:0, B:1, C:3, inserted in that order, in
    its local dictionary, which is then dropped. *)
Theorem min_path_scenario_returns_none :
  closed abc_weighted = true ∧
  _weighted abc_weighted = true ∧
  min_path 6 abc_weighted "A" = Some (Ok None) ∧
  min_path_loop 6 abc_weighted "A"
    = Some (Ok [("A", 0); ("B", 1); ("C", 3)]).
Proof. repeat split; reflexivity. Qed.

(** * Further properties of the operations *)

(** ** More on dictionaries *)

Section dict_more.
Context {V : Type}.
Implicit Types (d : dict V) (k : string) (v : V).

Lemma dict_set_set k v v' d :
  dict_set k v (dict_set k v' d) = dict_set k v d.
Proof.
  induction d as [|[k0 v0] d IH]; simpl.
  - by rewrite decide_True.
  - destruct (decide (k = k0)) as [->|Hne]; simpl.
    + by rewrite decide_True.
    + rewrite decide_False by done. by rewrite IH.
Qed.

Lemma dict_set_same k v d : dict_get k d = Some v → dict_set k v d = d.
Proof.
  induction d as [|[k0 v0] d IH]; simpl; [done|].
  destruct (decide (k = k0)) as [->|Hne].
  - by intros [= ->].
  - intros. by rewrite IH.
Qed.

Lemma dict_del_set_absent k v d :
  dict_get k d = None → dict_del k (dict_set k v d) = d.
Proof.
  intros Hk. rewrite dict_set_absent by done. unfold dict_del.
  rewrite filter_app. fold (dict_del k d). rewrite dict_del_absent by done.
  rewrite filter_cons. simpl. rewrite decide_False by auto.
  by rewrite filter_nil, app_nil_r.
Qed.

Lemma dict_keys_set k v d :
  dict_keys (dict_set k v d) =
  if dict_contains k d then dict_keys d else dict_keys d ++ [k].
Proof.
  destruct (dict_contains k d) eqn:Hc.
  - by apply dict_keys_set_present, dict_contains_get.
  - apply dict_contains_false in Hc. rewrite dict_set_absent by done.
    unfold dict_keys. by rewrite fmap_app.
Qed.

Lemma dict_keys_del k d :
  dict_keys (dict_del k d) = filter (λ k', k' ≠ k) (dict_keys d).
Proof.
  unfold dict_keys, dict_del. induction d as [|[k0 v0] d IH]; [done|].
  rewrite fmap_cons, !filter_cons.
  change ((k0, v0).1) with k0.
  destruct (decide (k0 ≠ k)); [rewrite fmap_cons|]; by rewrite IH.
Qed.

Lemma dict_keys_NoDup_set k v d :
  NoDup (dict_keys d) → NoDup (dict_keys (dict_set k v d)).
Proof.
  rewrite dict_keys_set. destruct (dict_contains k d) eqn:Hc; [done|].
  intros Hnd. apply NoDup_app. split; [done|]. split.
  - intros k' Hin ->%list_elem_of_singleton.
    apply dict_contains_keys in Hin. congruence.
  - apply NoDup_singleton.
Qed.

Lemma dict_keys_NoDup_del k d :
  NoDup (dict_keys d) → NoDup (dict_keys (dict_del k d)).
Proof. rewrite dict_keys_del. apply NoDup_filter. Qed.

Lemma dict_len_del k d :
  NoDup (dict_keys d) → dict_contains k d = true →
  dict_len (dict_del k d) = dict_len d - 1.
Proof.
  unfold dict_len, dict_del, dict_contains, dict_keys.
  induction d as [|[k0 v0] d IH]; simpl; [done|].
  rewrite filter_cons. simpl. intros [Hk0 Hnd]%NoDup_cons.
  destruct (decide (k = k0)) as [->|Hne].
  - intros _. rewrite decide_False by auto.
    fold (dict_del k0 d). rewrite dict_del_absent; [lia|].
    destruct (dict_get k0 d) eqn:Hget; [|done].
    destruct Hk0. apply (dict_keys_get k0 d). eauto.
  - intros Hc. rewrite decide_True by done. simpl.
    specialize (IH Hnd Hc). lia.
Qed.

Lemma dict_len_set k v d :
  dict_len (dict_set k v d) =
  if dict_contains k d then dict_len d else dict_len d + 1.
Proof.
  unfold dict_len.
  pose proof (f_equal length (dict_keys_set k v d)) as Hlen.
  unfold dict_keys in Hlen. rewrite length_fmap in Hlen. rewrite Hlen.
  destruct (dict_contains k d); rewrite ?length_app, length_fmap; simpl;
    lia.
Qed.
End dict_more.

(** ** Edges one at a time *)

Section edge_facts.
Context {A : Type}.
Implicit Types (g : DirectedGraph A).

Lemma edge_exists_weight g u v :
  edge_exists g u v = true ↔ is_Some (edge_weight g u v).
Proof.
  unfold edge_exists, edge_weight.
  destruct (dict_get u (_vertices g)); [apply dict_contains_get|].
  split; [done | by intros [? ?]].
Qed.

Lemma edge_exists_false_weight g u v :
  edge_exists g u v = false ↔ edge_weight g u v = None.
Proof.
  unfold edge_exists, edge_weight.
  destruct (dict_get u (_vertices g)); [apply dict_contains_false|done].
Qed.

Lemma edge_weight_edge g u v : is_Some (edge_weight g u v) ↔ edge g u v.
Proof. by rewrite <- edge_exists_weight, edge_exists_edge. Qed.

Lemma edge_exists_vertex g u v :
  edge_exists g u v = true → vertex_exists g u = true.
Proof.
  unfold edge_exists, vertex_exists, dict_contains.
  by destruct (dict_get u (_vertices g)).
Qed.

Lemma vertex_eta (vert : Vertex A) :
  mkVertex (id vert) (value vert) (adj_dict vert) = vert.
Proof. by destruct vert. Qed.

Lemma graph_eta g : mkGraph (_vertices g) (_size g) (_weighted g) = g.
Proof. by destruct g. Qed.

(** What a successful [add_edge] of a new edge builds. *)
Lemma add_edge_new g a b w va :
  dict_get a (_vertices g) = Some va →
  vertex_exists g b = true →
  dict_get b (adj_dict va) = None →
  _weighted g && negb (truthy w) = false →
  add_edge g a b w =
  (Ok tt,
   mkGraph
     (dict_set a
        (mkVertex (id va) (value va)
           (dict_set b (if _weighted g then w else None) (adj_dict va)))
        (_vertices g))
     (_size g) (_weighted g)).
Proof.
  intros Ha Hb Hab Hw. unfold add_edge, vertex_exists, dict_contains in *.
  rewrite Ha. simpl. destruct (dict_get b (_vertices g)); [|done]. simpl.
  by rewrite Hab, Hw.
Qed.

Lemma add_edge_no_source g a b w :
  vertex_exists g a = false →
  add_edge g a b w = (Raise (GraphException msg_no_source), g).
Proof. unfold add_edge, vertex_exists. by intros ->. Qed.

Lemma add_edge_no_dest g a b w :
  vertex_exists g a = true → vertex_exists g b = false →
  add_edge g a b w = (Raise (GraphException msg_no_dest), g).
Proof. unfold add_edge, vertex_exists. by intros -> ->. Qed.

Lemma remove_edge_absent g a b :
  edge_exists g a b = false →
  remove_edge g a b = (Raise (GraphException msg_no_edge), g).
Proof.
  unfold edge_exists, remove_edge.
  destruct (dict_get a (_vertices g)) as [va|]; [|done]. by intros ->.
Qed.

(** What a successful [remove_edge] builds. *)
Lemma remove_edge_present g a b va :
  dict_get a (_vertices g) = Some va →
  is_Some (dict_get b (adj_dict va)) →
  remove_edge g a b =
  (Ok tt,
   mkGraph
     (dict_set a (without_edge b va) (_vertices g))
     (_size g) (_weighted g)).
Proof.
  intros Ha Hb%dict_contains_get. unfold remove_edge. by rewrite Ha, Hb.
Qed.
End edge_facts.

(** X1. [remove_edge a b] on an existing edge raises nothing and removes
    exactly that edge: afterwards [edge_exists a b] is false, every other
    adjacency entry (with its weight), the vertices, their order, their
    values and [_size] are as before. When the edge does not exist, whether
    because [a] is missing, [b] is missing or the two are not joined, the
    call raises the one "no edge" [GraphException] (kind NotFound) and
    leaves the graph as it was. *)
Theorem remove_edge_spec {A} (g : DirectedGraph A) (a b : string) :
  (edge_exists g a b = true →
     ∃ g', remove_edge g a b = (Ok tt, g') ∧
       edge_exists g' a b = false ∧
       (∀ u v, (u, v) ≠ (a, b) →
          edge_weight g' u v = edge_weight g u v) ∧
       dict_keys (_vertices g') = dict_keys (_vertices g) ∧
       (∀ u, value <$> dict_get u (_vertices g') =
             value <$> dict_get u (_vertices g)) ∧
       _size g' = _size g ∧
       _weighted g' = _weighted g) ∧
  (edge_exists g a b = false →
     remove_edge g a b = (Raise (GraphException msg_no_edge), g) ∧
     NotFound (GraphException msg_no_edge)).
Proof.
  split.
  - intros He. unfold edge_exists in He.
    destruct (dict_get a (_vertices g)) as [va|] eqn:Ha; [|done].
    apply dict_contains_get in He.
    rewrite (remove_edge_present g a b va Ha He).
    eexists. split; [done|]. repeat split.
    + unfold edge_exists. simpl. rewrite dict_get_set_eq. simpl.
      apply dict_contains_false, dict_get_del_eq.
    + intros u v Huv. unfold edge_weight. simpl. rewrite dict_get_set.
      destruct (decide (u = a)) as [->|Hu]; [|done].
      rewrite Ha. simpl. apply dict_get_del_ne. congruence.
    + simpl. apply dict_keys_set_present. eauto.
    + intros u. simpl. rewrite dict_get_set.
      destruct (decide (u = a)) as [->|Hu]; [|done]. by rewrite Ha.
  - intros He. split; [by apply remove_edge_absent | repeat right; done].
Qed.

Lemma remove_edge_spec_witness :
  (∃ g', remove_edge abc_chain "A" "B" = (Ok tt, g') ∧
         edge_exists g' "A" "B" = false ∧
         edge_weight g' "B" "C" = edge_weight abc_chain "B" "C") ∧
  remove_edge abc_chain "A" "C" =
    (Raise (GraphException msg_no_edge), abc_chain).
Proof.
  split.
  - destruct (proj1 (remove_edge_spec abc_chain "A" "B"))
      as (g' & Hrm & He & Hothers & _); [reflexivity|].
    exists g'. repeat split; [exact Hrm | exact He |].
    apply Hothers. discriminate.
  - apply (proj2 (remove_edge_spec abc_chain "A" "C")). reflexivity.
Defined.

(** X2. When [add_edge] raises. The call raises exactly in three cases,
    tried in this order: the source is missing ("source" exception, also
    when the destination is missing too); the destination is missing
    ("destination" exception); both are present, not yet joined, the graph
    is weighted and the weight is absent or zero ("weight" exception). The
    first two are of kind NotFound, the third of kind InvalidArgument; no
    other exception is ever raised, and a call that raises leaves the graph
    as it was. *)
Theorem add_edge_raises {A} (g g' : DirectedGraph A) (a b : string)
    (w : weight) (e : exn) :
  add_edge g a b w = (Raise e, g') ↔
  g' = g ∧
  ((vertex_exists g a = false ∧ e = GraphException msg_no_source) ∨
   (vertex_exists g a = true ∧ vertex_exists g b = false ∧
    e = GraphException msg_no_dest) ∨
   (vertex_exists g a = true ∧ vertex_exists g b = true ∧
    edge_exists g a b = false ∧ _weighted g = true ∧ truthy w = false ∧
    e = GraphException msg_no_weight)).
Proof.
  destruct (vertex_exists g a) eqn:Ha.
  2: { rewrite (add_edge_no_source g a b w Ha). split.
       - intros [= <- <-]. split; [done|]. by left.
       - intros [-> [[_ ->]|[(? & _)|(? & _)]]]; done. }
  destruct (vertex_exists g b) eqn:Hb.
  2: { rewrite (add_edge_no_dest g a b w Ha Hb). split.
       - intros [= <- <-]. split; [done|]. right. by left.
       - intros [-> [[? _]|[(_ & _ & ->)|(_ & ? & _)]]]; done. }
  pose proof Ha as [va Hva]%vertex_exists_get.
  assert (edge_exists g a b = dict_contains b (adj_dict va)) as He
    by (unfold edge_exists; by rewrite Hva).
  rewrite He. unfold add_edge, vertex_exists in *. rewrite Ha, Hb, Hva.
  simpl.
  destruct (dict_contains b (adj_dict va)), (_weighted g), (truthy w);
    simpl; split; try done;
    try (intros [_ [[? _]|[(_ & ? & _)|(_ & _ & ? & ? & ? & _)]]]; done).
  - intros [= <- <-]. split; [done|]. right. right. done.
  - by intros [-> [[? _]|[(_ & ? & _)|(_ & _ & _ & _ & _ & ->)]]].
Qed.

Lemma add_edge_raises_witness :
  add_edge (abc true) "A" "B" (Some 0)
  = (Raise (GraphException msg_no_weight), abc true).
Proof.
  apply (proj2 (add_edge_raises (abc true) (abc true) "A" "B" (Some 0)
                  (GraphException msg_no_weight))).
  split; [reflexivity|]. right. right. repeat split; reflexivity.
Defined.

(** X3. A call [add_edge a b w] that finds both vertices, no edge from
    [a] to [b], and either an unweighted graph or a non-zero weight, raises
    nothing and adds exactly that edge. It is stored with [w] in a weighted
    graph and without a weight in an unweighted one, where [w] is
    discarded. Every other adjacency entry, the vertices, their order, their
    values and [_size] are as before. *)
Theorem add_edge_spec {A} (g : DirectedGraph A) (a b : string) (w : weight) :
  vertex_exists g a = true → vertex_exists g b = true →
  edge_exists g a b = false →
  _weighted g = false ∨ truthy w = true →
  ∃ g', add_edge g a b w = (Ok tt, g') ∧
    edge_weight g' a b = Some (if _weighted g then w else None) ∧
    edge_exists g' a b = true ∧
    (∀ u v, (u, v) ≠ (a, b) → edge_weight g' u v = edge_weight g u v) ∧
    dict_keys (_vertices g') = dict_keys (_vertices g) ∧
    (∀ u, value <$> dict_get u (_vertices g') =
          value <$> dict_get u (_vertices g)) ∧
    _size g' = _size g ∧
    _weighted g' = _weighted g.
Proof.
  intros Ha Hb He Hw.
  apply vertex_exists_get in Ha as [va Ha].
  assert (dict_get b (adj_dict va) = None) as Hab.
  { apply edge_exists_false_weight in He. unfold edge_weight in He.
    by rewrite Ha in He. }
  rewrite (add_edge_new g a b w va Ha Hb Hab).
  2: { destruct Hw as [->| ->]; [done | apply andb_false_r]. }
  eexists. split; [done|].
  assert (∀ u v,
    edge_weight
      (mkGraph
         (dict_set a
            (mkVertex (id va) (value va)
               (dict_set b (if _weighted g then w else None) (adj_dict va)))
            (_vertices g)) (_size g) (_weighted g)) u v =
    if decide ((u, v) = (a, b)) then Some (if _weighted g then w else None)
    else edge_weight g u v) as Hweight.
  { intros u v. unfold edge_weight. simpl. rewrite dict_get_set.
    destruct (decide (u = a)) as [->|Hu].
    - simpl. rewrite dict_get_set, Ha.
      destruct (decide (v = b)) as [->|Hv].
      + by rewrite decide_True.
      + rewrite decide_False; [done | congruence].
    - rewrite decide_False; [done | congruence]. }
  repeat split.
  - rewrite Hweight. by rewrite decide_True.
  - apply edge_exists_weight. rewrite Hweight, decide_True by done. eauto.
  - intros u v Huv. rewrite Hweight. by rewrite decide_False.
  - simpl. apply dict_keys_set_present. eauto.
  - intros u. simpl. rewrite dict_get_set.
    destruct (decide (u = a)) as [->|Hu]; [|done]. by rewrite Ha.
Qed.

Lemma add_edge_spec_witness :
  (∃ g', add_edge (abc true) "A" "B" (Some 4) = (Ok tt, g') ∧
         edge_weight g' "A" "B" = Some (Some 4)) ∧
  (∃ g', add_edge (abc false) "A" "B" (Some 4) = (Ok tt, g') ∧
         edge_weight g' "A" "B" = Some None).
Proof.
  split.
  - destruct (add_edge_spec (abc true) "A" "B" (Some 4))
      as (g' & Hadd & Hw & _); try reflexivity; [by right|].
    exists g'. split; [exact Hadd | exact Hw].
  - destruct (add_edge_spec (abc false) "A" "B" (Some 4))
      as (g' & Hadd & Hw & _); try reflexivity; [by left|].
    exists g'. split; [exact Hadd | exact Hw].
Defined.

(** X4. Removing an edge that was just added gives back the graph as it
    was: if [a] and [b] are present, had no edge from [a] to [b], and
    [add_edge a b w] raised nothing, then [remove_edge a b] on the result
    raises nothing and returns the original graph, adjacency order
    included. *)
Theorem add_edge_remove_edge {A} (g : DirectedGraph A) (a b : string)
    (w : weight) :
  vertex_exists g a = true → vertex_exists g b = true →
  edge_exists g a b = false →
  (add_edge g a b w).1 = Ok tt →
  remove_edge (add_edge g a b w).2 a b = (Ok tt, g).
Proof.
  intros Ha Hb He Hok.
  apply vertex_exists_get in Ha as [va Ha].
  assert (dict_get b (adj_dict va) = None) as Hab.
  { apply edge_exists_false_weight in He. unfold edge_weight in He.
    by rewrite Ha in He. }
  assert (_weighted g && negb (truthy w) = false) as Hw.
  { destruct (_weighted g && negb (truthy w)) eqn:Hw; [|done].
    revert Hok. unfold add_edge, vertex_exists, dict_contains in *.
    rewrite Ha. simpl. destruct (dict_get b (_vertices g)); [|done].
    simpl. by rewrite Hab, Hw. }
  rewrite (add_edge_new g a b w va Ha Hb Hab Hw). simpl.
  erewrite remove_edge_present; simpl.
  2: apply dict_get_set_eq.
  2: { simpl. rewrite dict_get_set_eq. eauto. }
  unfold without_edge. simpl.
  rewrite dict_set_set, dict_del_set_absent by done.
  rewrite vertex_eta, dict_set_same by done.
  by rewrite graph_eta.
Qed.

Lemma add_edge_remove_edge_witness :
  remove_edge (add_edge abc_chain "A" "C" None).2 "A" "C"
  = (Ok tt, abc_chain).
Proof.
  apply (add_edge_remove_edge abc_chain "A" "C" None); reflexivity.
Defined.

(** ** Vertices one at a time *)

Section vertex_facts.
Context {A : Type}.
Implicit Types (g : DirectedGraph A) (vs : dict (Vertex A)).

Lemma sever_all_unchanged v ks vs :
  (∀ k vert, dict_get k vs = Some vert →
     dict_get v (adj_dict vert) = None) →
  fold_left (sever_inbound v) ks vs = vs.
Proof.
  intros Hno. induction ks as [|k ks IH]; [done|].
  change (fold_left ?f (k :: ks) vs) with (fold_left f ks (f vs k)).
  assert (sever_inbound v vs k = vs) as ->; [|done].
  unfold sever_inbound.
  destruct (dict_get k vs) as [vert|] eqn:Hk; [|done].
  apply Hno, dict_contains_false in Hk. by rewrite Hk.
Qed.

Lemma sever_inbound_keys v vs k :
  dict_keys (sever_inbound v vs k) = dict_keys vs.
Proof.
  unfold sever_inbound.
  destruct (dict_get k vs) as [vert|] eqn:Hk; [|done].
  destruct (dict_contains v (adj_dict vert)); [|done].
  apply dict_keys_set_present. eauto.
Qed.

Lemma sever_all_keys v ks vs :
  dict_keys (fold_left (sever_inbound v) ks vs) = dict_keys vs.
Proof.
  revert vs. induction ks as [|k ks IH]; intros vs; [done|].
  change (fold_left ?f (k :: ks) vs) with (fold_left f ks (f vs k)).
  by rewrite IH, sever_inbound_keys.
Qed.

Lemma dict_len_keys {V} (d d' : dict V) :
  dict_keys d = dict_keys d' → dict_len d = dict_len d'.
Proof.
  unfold dict_len, dict_keys. intros Hk.
  apply (f_equal length) in Hk. rewrite !length_fmap in Hk. by rewrite Hk.
Qed.

Lemma dict_contains_ext {V} (d d' : dict V) k :
  dict_keys d = dict_keys d' → dict_contains k d = dict_contains k d'.
Proof.
  intros Hk. apply eq_true_iff_eq.
  by rewrite !dict_contains_keys, Hk.
Qed.
End vertex_facts.

(** X5. Removing a vertex that was just added gives back the graph as it
    was: on a graph whose adjacency keys are all vertices, if [identifier]
    is not yet a vertex, [add_vertex identifier value] followed by
    [remove_vertex identifier] raises nothing and returns the original
    graph. *)
Theorem add_vertex_remove_vertex {A} (g : DirectedGraph A)
    (identifier : string) (value : A) :
  closed g = true → vertex_exists g identifier = false →
  remove_vertex (add_vertex g identifier value).2 identifier = (Ok tt, g).
Proof.
  intros Hg%closed_spec Hnew%dict_contains_false.
  unfold add_vertex. rewrite Hnew. simpl.
  unfold remove_vertex. simpl.
  rewrite dict_contains_set, decide_True by done. simpl.
  rewrite sever_all_unchanged.
  - rewrite dict_del_set_absent by done.
    replace (_size g + 1 - 1) with (_size g) by lia.
    by rewrite graph_eta.
  - intros k vert. rewrite dict_get_set.
    destruct (decide (k = identifier)) as [->|Hk].
    + by intros [= <-].
    + intros Hget.
      destruct (dict_get identifier (adj_dict vert)) eqn:Hadj; [|done].
      destruct (Hg k vert identifier Hget) as [? ?]; [eauto | congruence].
Qed.

Lemma add_vertex_remove_vertex_witness :
  remove_vertex (add_vertex abc_chain "D" tt).2 "D" = (Ok tt, abc_chain).
Proof.
  apply (add_vertex_remove_vertex abc_chain "D" tt); reflexivity.
Defined.


(** ** Invariants of the graphs a caller can build *)

Section built_facts.
Context {A : Type}.
Implicit Types (g : DirectedGraph A).

(** The four parts of [graph_ok], one goal each. *)
Ltac graph_ok_parts := split; [|split; [|split]]; simpl.

Lemma graph_ok_new_graph (weighted : bool) :
  graph_ok (@new_graph A weighted).
Proof.
  graph_ok_parts; try done. apply NoDup_nil_2.
Qed.

Lemma graph_ok_add_vertex g identifier value :
  graph_ok g → graph_ok (add_vertex g identifier value).2.
Proof.
  intros (Hnd & Hsz & Hvert & Hw). unfold add_vertex.
  destruct (dict_get identifier (_vertices g)) as [old|] eqn:Hold;
    graph_ok_parts.
  - by apply dict_keys_NoDup_set.
  - rewrite dict_len_set. unfold dict_contains. by rewrite Hold.
  - intros u vert. rewrite dict_get_set.
    case_decide; [|by intros ?%Hvert].
    intros [= <-]. simpl. split; [done|]. by apply (Hvert identifier old).
  - intros u v w. unfold edge_weight. simpl. rewrite dict_get_set.
    case_decide; [subst|apply Hw]. simpl. intros Hv.
    apply (Hw identifier v w). unfold edge_weight. by rewrite Hold.
  - by apply dict_keys_NoDup_set.
  - rewrite dict_len_set. unfold dict_contains. rewrite Hold. lia.
  - intros u vert. rewrite dict_get_set.
    case_decide; [|by intros ?%Hvert].
    intros [= <-]. simpl. split; [done|]. apply NoDup_nil_2.
  - intros u v w. unfold edge_weight. simpl. rewrite dict_get_set.
    case_decide; [done|apply Hw].
Qed.

Lemma graph_ok_remove_vertex g identifier :
  graph_ok g → graph_ok (remove_vertex g identifier).2.
Proof.
  intros (Hnd & Hsz & Hvert & Hw).
  destruct (remove_vertex g identifier) as [r g'] eqn:Hrm.
  pose proof Hrm as Hrm'. revert Hrm'. unfold remove_vertex.
  destruct (dict_contains identifier (_vertices g)) eqn:Hc; simpl.
  2: { by intros [= <- <-]. }
  intros [= <- <-].
  pose proof (λ u, remove_vertex_get g identifier _ u Hrm) as Hget.
  simpl in Hget.
  pose proof (sever_all_keys identifier (dict_keys (_vertices g))
                (_vertices g)) as Hkeys.
  graph_ok_parts.
  - apply dict_keys_NoDup_del. by rewrite Hkeys.
  - rewrite dict_len_del.
    + rewrite (dict_len_keys _ _ Hkeys). lia.
    + by rewrite Hkeys.
    + by rewrite (dict_contains_ext _ _ _ Hkeys).
  - intros u vert. rewrite Hget. case_decide; [done|].
    destruct (dict_get u (_vertices g)) as [vert0|] eqn:Hu; [|done].
    intros [= <-]. simpl. destruct (Hvert u vert0 Hu). split; [done|].
    by apply dict_keys_NoDup_del.
  - intros u v w. unfold edge_weight. simpl. rewrite Hget.
    case_decide; [done|].
    destruct (dict_get u (_vertices g)) as [vert0|] eqn:Hu; [|done].
    simpl. rewrite dict_get_del. case_decide; [done|]. intros Hv.
    apply (Hw u v w). unfold edge_weight. by rewrite Hu.
Qed.

Lemma graph_ok_add_edge g a b w :
  graph_ok g → graph_ok (add_edge g a b w).2.
Proof.
  intros Hok. pose proof Hok as (Hnd & Hsz & Hvert & Hw).
  destruct (vertex_exists g a) eqn:Ha.
  2: { by rewrite (add_edge_no_source g a b w Ha). }
  destruct (vertex_exists g b) eqn:Hb.
  2: { by rewrite (add_edge_no_dest g a b w Ha Hb). }
  pose proof Ha as [va Hva]%vertex_exists_get.
  destruct (dict_get b (adj_dict va)) as [w0|] eqn:Hab.
  { assert (add_edge g a b w = (Ok tt, g)) as ->; [|done].
    unfold add_edge, vertex_exists, dict_contains in *.
    rewrite Hva. simpl. destruct (dict_get b (_vertices g)); [|done].
    simpl. by rewrite Hab. }
  destruct (_weighted g && negb (truthy w)) eqn:Hwt.
  { assert (add_edge g a b w = (Raise (GraphException msg_no_weight), g))
      as ->; [|done].
    unfold add_edge, vertex_exists, dict_contains in *.
    rewrite Hva. simpl. destruct (dict_get b (_vertices g)); [|done].
    simpl. by rewrite Hab, Hwt. }
  rewrite (add_edge_new g a b w va Hva Hb Hab Hwt).
  graph_ok_parts.
  - by apply dict_keys_NoDup_set.
  - rewrite dict_len_set. unfold vertex_exists in Ha. by rewrite Ha.
  - intros u vert. rewrite dict_get_set.
    case_decide; [|by intros ?%Hvert].
    intros [= <-]. simpl. subst u. destruct (Hvert a va Hva).
    split; [done|]. by apply dict_keys_NoDup_set.
  - intros u v w'. unfold edge_weight. simpl. rewrite dict_get_set.
    destruct (decide (u = a)) as [->|Hu]; [|apply Hw]. simpl.
    rewrite dict_get_set. destruct (decide (v = b)) as [->|Hv].
    + intros [= <-]. destruct (_weighted g); [|done].
      simpl in Hwt. by apply negb_false_iff in Hwt.
    + intros Hget. apply (Hw a v w'). unfold edge_weight. by rewrite Hva.
Qed.

Lemma graph_ok_remove_edge g a b :
  graph_ok g → graph_ok (remove_edge g a b).2.
Proof.
  intros Hok. pose proof Hok as (Hnd & Hsz & Hvert & Hw).
  destruct (edge_exists g a b) eqn:He.
  2: { by rewrite (remove_edge_absent g a b He). }
  unfold edge_exists in He.
  destruct (dict_get a (_vertices g)) as [va|] eqn:Hva; [|done].
  apply dict_contains_get in He.
  rewrite (remove_edge_present g a b va Hva He).
  graph_ok_parts.
  - by apply dict_keys_NoDup_set.
  - rewrite dict_len_set. unfold dict_contains. by rewrite Hva.
  - intros u vert. rewrite dict_get_set.
    case_decide; [|by intros ?%Hvert].
    intros [= <-]. simpl. subst u. destruct (Hvert a va Hva).
    split; [done|]. by apply dict_keys_NoDup_del.
  - intros u v w'. unfold edge_weight. simpl. rewrite dict_get_set.
    destruct (decide (u = a)) as [->|Hu]; [|apply Hw]. simpl.
    rewrite dict_get_del. case_decide; [done|]. intros Hget.
    apply (Hw a v w'). unfold edge_weight. by rewrite Hva.
Qed.

Lemma built_graph_ok g : built g → graph_ok g.
Proof.
  induction 1 as [w|g i v _ IH|g i _ IH|g a b w _ IH|g a b _ IH].
  - apply graph_ok_new_graph.
  - by apply graph_ok_add_vertex.
  - by apply graph_ok_remove_vertex.
  - by apply graph_ok_add_edge.
  - by apply graph_ok_remove_edge.
Qed.
End built_facts.

Lemma built_abc (weighted : bool) : built (abc weighted).
Proof. unfold abc, after. repeat constructor. Qed.

Lemma built_abc_chain : built abc_chain.
Proof. unfold abc_chain, after. repeat constructor. Qed.

Lemma built_abc_weighted : built abc_weighted.
Proof. unfold abc_weighted, after. repeat constructor. Qed.

Lemma built_abc_triangle : built abc_triangle.
Proof. unfold abc_triangle, after. repeat constructor. Qed.

(** X7. In every graph built by the public operations, whatever calls were
    made and whether they raised or not, [_size] is the number of vertices
    stored, and no identifier is stored twice. *)
Theorem size_counts_vertices {A} (g : DirectedGraph A) :
  built g →
  _size g = dict_len (_vertices g) ∧
  NoDup (dict_keys (_vertices g)) ∧
  0 ≤ _size g.
Proof.
  intros (Hnd & Hsz & _)%built_graph_ok. repeat split; [done|done|].
  rewrite Hsz. unfold dict_len. lia.
Qed.

Lemma size_counts_vertices_witness :
  _size abc_chain = dict_len (_vertices abc_chain) ∧
  NoDup (dict_keys (_vertices abc_chain)) ∧
  0 ≤ _size abc_chain.
Proof. apply (size_counts_vertices abc_chain), built_abc_chain. Defined.

(** X8. In every graph built by the public operations, each stored edge
    carries a non-zero integer weight if the graph is weighted, and no
    weight at all if it is unweighted. *)
Theorem stored_weights {A} (g : DirectedGraph A) (u v : string)
    (w : weight) :
  built g → edge_weight g u v = Some w →
  if _weighted g then ∃ c, w = Some c ∧ c ≠ 0 else w = None.
Proof.
  intros (_ & _ & _ & Hw)%built_graph_ok Huv. specialize (Hw u v w Huv).
  destruct (_weighted g); [|done].
  destruct w as [c|]; [|done]. exists c. split; [done|].
  simpl in Hw. apply negb_true_iff in Hw. lia.
Qed.

Lemma stored_weights_witness :
  ∃ c, Some 2 = Some c ∧ c ≠ 0.
Proof.
  apply (stored_weights abc_weighted "B" "C" (Some 2));
    [apply built_abc_weighted | reflexivity].
Defined.

(** X9. In every graph built by the public operations an edge joins two
    vertices of the graph: if [edge_exists u v] then [vertex_exists u] and
    [vertex_exists v]. In particular no edge to a removed vertex is left
    behind. *)
Theorem edges_join_vertices {A} (g : DirectedGraph A) (u v : string) :
  built g → edge_exists g u v = true →
  vertex_exists g u = true ∧ vertex_exists g v = true.
Proof.
  intros Hg%built_closed%closed_spec He. split.
  - by apply (edge_exists_vertex g u v).
  - apply edge_exists_edge in He as (vert & Hu & Hv).
    apply vertex_exists_get. by apply (Hg u vert v).
Qed.

Lemma edges_join_vertices_witness :
  vertex_exists abc_chain "A" = true ∧ vertex_exists abc_chain "B" = true.
Proof.
  apply (edges_join_vertices abc_chain "A" "B");
    [apply built_abc_chain | reflexivity].
Defined.

(** X10. [get_adjacent_vertices] raises the "no vertex" [GraphException]
    (kind NotFound) for a missing identifier. For a vertex of a graph built
    by the public operations it raises nothing and returns [None] exactly
    when the vertex has no outbound edge; otherwise it returns a non-empty
    list without repetition whose elements are exactly the [v] with
    [edge_exists identifier v], all of them vertices of the graph. *)
Theorem get_adjacent_vertices_spec {A} (g : DirectedGraph A)
    (identifier : string) :
  built g →
  (vertex_exists g identifier = false →
     get_adjacent_vertices g identifier =
     Raise (GraphException msg_no_vertex)) ∧
  (vertex_exists g identifier = true →
     ∃ r, get_adjacent_vertices g identifier = Ok r ∧
       match r with
       | None => ∀ v, edge_exists g identifier v = false
       | Some l =>
           l ≠ [] ∧ NoDup l ∧
           (∀ v, v ∈ l ↔ edge_exists g identifier v = true) ∧
           (∀ v, v ∈ l → vertex_exists g v = true)
       end).
Proof.
  intros Hb. pose proof (built_graph_ok g Hb) as (_ & _ & Hvert & _).
  apply built_closed, closed_spec in Hb. unfold get_adjacent_vertices.
  split.
  - intros Hv%dict_contains_false. by rewrite Hv.
  - intros [vert Hv]%vertex_exists_get. rewrite Hv.
    assert (∀ v, edge_exists g identifier v = dict_contains v (adj_dict vert))
      as He by (intros v; unfold edge_exists; by rewrite Hv).
    destruct (adj_dict vert) as [|[k c] adj] eqn:Hadj.
    + exists None. split; [done|]. intros v. by rewrite He.
    + exists (Some (dict_keys ((k, c) :: adj))). split; [done|].
      split; [done|]. rewrite <- Hadj. split; [by apply (Hvert identifier)|].
      split.
      * intros v. by rewrite He, Hadj, dict_contains_keys.
      * intros v Hin%dict_keys_get. apply vertex_exists_get.
        by apply (Hb identifier vert v).
Qed.

Lemma get_adjacent_vertices_spec_witness :
  get_adjacent_vertices abc_chain "Z" =
    Raise (GraphException msg_no_vertex) ∧
  (∃ r, get_adjacent_vertices abc_chain "C" = Ok r ∧
        match r with
        | None => ∀ v, edge_exists abc_chain "C" v = false
        | Some _ => True
        end).
Proof.
  destruct (get_adjacent_vertices_spec abc_chain "Z" built_abc_chain)
    as [Hz _].
  destruct (get_adjacent_vertices_spec abc_chain "C" built_abc_chain)
    as [_ Hc].
  split; [apply Hz; reflexivity|].
  destruct Hc as (r & Hr & Hspec); [reflexivity|].
  exists r. split; [exact Hr|]. destruct r; [exact I | exact Hspec].
Defined.

(** ** More on the searches *)

Section search_more.
Context {A : Type} (g : DirectedGraph A).

Lemma path_vertex s v :
  adj_closed g → is_Some (dict_get s (_vertices g)) → path g s v →
  is_Some (dict_get v (_vertices g)).
Proof.
  intros Hg Hs Hp. induction Hp as [|u w v (vert & Hu & Hw) _ IH]; [done|].
  apply IH. by apply (Hg u vert w).
Qed.

Lemma depth_first_search_mono m m' s t r :
  depth_first_search m g s t = Some r → (m ≤ m')%nat →
  depth_first_search m' g s t = Some r.
Proof.
  unfold depth_first_search.
  destruct (negb (dict_contains s _)); [done|].
  destruct (negb (dict_contains t _)); [done|]. apply run_loop_mono.
Qed.

Lemma breadth_first_search_mono m m' s target r :
  breadth_first_search m g s target = Some r → (m ≤ m')%nat →
  breadth_first_search m' g s target = Some r.
Proof.
  unfold breadth_first_search.
  destruct (negb (dict_contains s _)); [done|].
  destruct (truthy_id target && _); [done|]. apply run_loop_mono.
Qed.

Lemma dfs_found_spec s t :
  adj_closed g → vertex_exists g s = true → vertex_exists g t = true →
  ∃ b n,
    (∀ m, (n ≤ m)%nat → depth_first_search m g s t = Some (Ok b)) ∧
    (b = true ↔ path g s t).
Proof.
  intros Hg Hs Ht.
  destruct (dfs_loop_spec g s t Hg) as (b & n & Hn & Hb).
  { by apply vertex_exists_get. }
  exists b, n. split; [|done]. intros m Hm.
  unfold depth_first_search, vertex_exists in *. rewrite Hs, Ht. simpl.
  by apply Hn.
Qed.

(** The loop of [breadth_first_search] with a target that is searched
    for: the flag is set exactly when the target is in the visited set. *)
Lemma bfs_body_inv_found s t st :
  adj_closed g → t ≠ "" →
  bfs_inv g s st ∧ (st.2 = true ↔ t ∈ bfs_visited st) →
  match bfs_body g (Some t) st with
  | inl st' => bfs_inv g s st' ∧ (st'.2 = true ↔ t ∈ bfs_visited st')
  | inr r =>
      ∃ b l, r = Ok (Found b l) ∧ (b = true ↔ path g s t) ∧
             NoDup l ∧ (∀ v, v ∈ l ↔ path g s v)
  end.
Proof.
  intros Hg Ht [Hinv Hfound].
  assert (truthy_id (Some t) = true) as Htruthy.
  { simpl. apply negb_true_iff, String.eqb_neq. done. }
  pose proof (bfs_body_inv g s (Some t) st Hg Hinv) as Hstep.
  destruct st as [[visited [|v rest]] found].
  - simpl in *. rewrite Htruthy.
    exists found, (elements visited). split; [done|].
    unfold bfs_inv, bfs_visited, bfs_queue in Hinv. simpl in *.
    split; [|split; [apply NoDup_elements|]].
    + rewrite Hfound. by apply search_inv_done.
    + intros v. rewrite elem_of_elements. by apply search_inv_done.
  - unfold bfs_body in *. simpl queue_dequeue in *. cbv iota beta in *.
    destruct (dict_get v (_vertices g)) as [vert|].
    2: { destruct Hstep as (l & _ & _ & Hshape).
         rewrite Htruthy in Hshape. by destruct Hshape. }
    split; [done|]. unfold bfs_visited in *. simpl in *.
    rewrite Htruthy. simpl. rewrite elem_of_union, elem_of_singleton.
    destruct (bool_decide (Some v = Some t)) eqn:Hvt.
    + apply bool_decide_eq_true in Hvt as [= ->]. split; auto.
    + apply bool_decide_eq_false in Hvt. rewrite Hfound.
      split; [by left|]. intros [?| ->]; [done|]. by destruct Hvt.
Qed.

Lemma bfs_found_spec s t :
  adj_closed g → vertex_exists g s = true → vertex_exists g t = true →
  t ≠ "" →
  ∃ b l n,
    (∀ m, (n ≤ m)%nat →
       breadth_first_search m g s (Some t) = Some (Ok (Found b l))) ∧
    (b = true ↔ path g s t) ∧
    NoDup l ∧ (∀ v, v ∈ l ↔ path g s v).
Proof.
  intros Hg Hs Ht Hne.
  destruct (bfs_loop_total g (Some t) (bfs_init s)) as (r & n & Hn).
  assert (∃ b l, r = Ok (Found b l) ∧ (b = true ↔ path g s t) ∧
                 NoDup l ∧ (∀ v, v ∈ l ↔ path g s v))
    as (b & l & -> & Hb & Hnd & Hl).
  { apply (run_loop_inv (bfs_body g (Some t))
             (λ st, bfs_inv g s st ∧ (st.2 = true ↔ t ∈ bfs_visited st))
             (λ r, ∃ b l, r = Ok (Found b l) ∧ (b = true ↔ path g s t) ∧
                          NoDup l ∧ (∀ v, v ∈ l ↔ path g s v))
             (λ st Hst, bfs_body_inv_found s t st Hg Hne Hst)
             n (bfs_init s)).
    - split.
      + apply search_inv_init. by apply vertex_exists_get.
      + unfold bfs_init, bfs_visited. simpl. split; [done|].
        by intros ?%elem_of_empty.
    - by apply Hn. }
  exists b, l, n. split; [|done]. intros m Hm.
  unfold breadth_first_search, vertex_exists in *. rewrite Hs, Ht. simpl.
  rewrite andb_false_r. by apply Hn.
Qed.
End search_more.

(** X11. On a graph built by the public operations, with [s] and a
    non-empty target [t] both present, [breadth_first_search s t] raises
    nothing and returns the pair [(found, reachable)], for every fuel large
    enough: [found] is true exactly when there is a directed path from [s]
    to [t], and [reachable] lists, each once, exactly the vertices reachable
    from [s], all of them vertices of the graph, whether [t] was found or
    not. *)
Theorem breadth_first_search_target {A} (g : DirectedGraph A)
    (s t : string) :
  closed g = true → vertex_exists g s = true → vertex_exists g t = true →
  t ≠ "" →
  ∃ found l n,
    (∀ m, (n ≤ m)%nat →
       breadth_first_search m g s (Some t) = Some (Ok (Found found l))) ∧
    (found = true ↔ path g s t) ∧
    NoDup l ∧
    (∀ v, v ∈ l ↔ path g s v) ∧
    (∀ v, v ∈ l → vertex_exists g v = true).
Proof.
  intros Hg%closed_spec Hs Ht Hne.
  destruct (bfs_found_spec g s t Hg Hs Ht Hne)
    as (b & l & n & Hn & Hb & Hnd & Hl).
  exists b, l, n. do 4 (split; [done|]).
  intros v Hv%Hl. apply vertex_exists_get.
  apply (path_vertex g s v Hg); [by apply vertex_exists_get | done].
Qed.

Lemma breadth_first_search_target_witness :
  ∃ found l n,
    (∀ m, (n ≤ m)%nat →
       breadth_first_search m abc_chain "B" (Some "A")
       = Some (Ok (Found found l))) ∧
    (found = true ↔ path abc_chain "B" "A").
Proof.
  destruct (breadth_first_search_target abc_chain "B" "A")
    as (b & l & n & Hn & Hb & _); try reflexivity; [discriminate|].
  exists b, l, n. split; [exact Hn | exact Hb].
Defined.

(** X12. The two searches agree: on a graph built by the public
    operations, with [s] and a non-empty [t] both present, the Boolean
    returned by [depth_first_search s t] is the flag returned by
    [breadth_first_search s t]. *)
Theorem searches_agree {A} (g : DirectedGraph A) (s t : string) :
  closed g = true → vertex_exists g s = true → vertex_exists g t = true →
  t ≠ "" →
  ∃ b l n, ∀ m, (n ≤ m)%nat →
    depth_first_search m g s t = Some (Ok b) ∧
    breadth_first_search m g s (Some t) = Some (Ok (Found b l)).
Proof.
  intros Hg%closed_spec Hs Ht Hne.
  destruct (dfs_found_spec g s t Hg Hs Ht) as (b & n1 & Hn1 & Hb).
  destruct (bfs_found_spec g s t Hg Hs Ht Hne)
    as (b' & l & n2 & Hn2 & Hb' & _).
  assert (b' = b) as ->.
  { destruct b, b'; try done; [apply Hb', Hb | symmetry; apply Hb, Hb'];
      done. }
  exists b, l, (n1 `max` n2)%nat. intros m Hm.
  split; [apply Hn1 | apply Hn2]; lia.
Qed.

Lemma searches_agree_witness :
  ∃ b l n, ∀ m, (n ≤ m)%nat →
    depth_first_search m abc_chain "A" "C" = Some (Ok b) ∧
    breadth_first_search m abc_chain "A" (Some "C")
    = Some (Ok (Found b l)).
Proof.
  apply (searches_agree abc_chain "A" "C"); try reflexivity. discriminate.
Defined.

(** X13. The only exceptions of [depth_first_search]: on a graph built by
    the public operations the call raises exactly when an endpoint is
    missing, the "source" [GraphException] when [s] is missing (also when
    [t] is missing too), the "target" one when only [t] is missing. Both are
    of kind NotFound and are raised before the loop, with any fuel. *)
Theorem depth_first_search_raises {A} (g : DirectedGraph A) (s t : string)
    (m : nat) (e : exn) :
  closed g = true →
  depth_first_search m g s t = Some (Raise e) ↔
  (vertex_exists g s = false ∧ e = GraphException msg_no_source) ∨
  (vertex_exists g s = true ∧ vertex_exists g t = false ∧
   e = GraphException msg_no_target).
Proof.
  intros Hg%closed_spec.
  destruct (vertex_exists g s) eqn:Hs.
  2: { unfold depth_first_search, vertex_exists in *. rewrite Hs. simpl.
       split; [intros [= <-]; by left|].
       by intros [[_ ->]|(? & _)]. }
  destruct (vertex_exists g t) eqn:Ht.
  2: { unfold depth_first_search, vertex_exists in *. rewrite Hs, Ht. simpl.
       split; [intros [= <-]; by right|].
       by intros [[? _]|(_ & _ & ->)]. }
  split; [|by intros [[? _]|(_ & ? & _)]].
  intros Hm. destruct (dfs_found_spec g s t Hg Hs Ht) as (b & n & Hn & _).
  apply (depth_first_search_mono g _ (m `max` n)%nat) in Hm; [|lia].
  rewrite Hn in Hm by lia. done.
Qed.

Lemma depth_first_search_raises_witness :
  depth_first_search 0 abc_chain "Z" "Y"
  = Some (Raise (GraphException msg_no_source)).
Proof.
  apply (proj2 (depth_first_search_raises abc_chain "Z" "Y" 0
                  (GraphException msg_no_source) eq_refl)).
  left. split; reflexivity.
Defined.

(** X14. The only exceptions of [breadth_first_search]: on a graph built
    by the public operations the call raises exactly when [s] is missing
    ("source" [GraphException], whatever the target) or when [s] is present
    and a non-empty target is given that is missing ("target"
    [GraphException]). Both are of kind NotFound and are raised before the
    loop, with any fuel. *)
Theorem breadth_first_search_raises {A} (g : DirectedGraph A) (s : string)
    (target : option string) (m : nat) (e : exn) :
  closed g = true →
  breadth_first_search m g s target = Some (Raise e) ↔
  (vertex_exists g s = false ∧ e = GraphException msg_no_source) ∨
  (vertex_exists g s = true ∧
   (∃ t, target = Some t ∧ t ≠ "" ∧ vertex_exists g t = false) ∧
   e = GraphException msg_no_target).
Proof.
  intros Hg%closed_spec.
  destruct (vertex_exists g s) eqn:Hs.
  2: { unfold breadth_first_search, vertex_exists in *. rewrite Hs. simpl.
       split; [intros [= <-]; by left|].
       by intros [[_ ->]|(? & _)]. }
  destruct (truthy_id target) eqn:Htruthy.
  - destruct target as [t|]; [|done].
    assert (t ≠ "") as Hne.
    { simpl in Htruthy. by apply negb_true_iff, String.eqb_neq in Htruthy. }
    destruct (vertex_exists g t) eqn:Ht.
    + split.
      * intros Hm.
        destruct (bfs_found_spec g s t Hg Hs Ht Hne) as (b & l & n & Hn & _).
        apply (breadth_first_search_mono g _ (m `max` n)%nat) in Hm; [|lia].
        rewrite Hn in Hm by lia. done.
      * intros [[? _]|(_ & (t' & [= <-] & _ & ?) & _)]; congruence.
    + unfold breadth_first_search, vertex_exists in *.
      rewrite Hs, Htruthy, Ht. simpl. split.
      * intros [= <-]. right. split; [done|]. split; [|done]. by exists t.
      * by intros [[? _]|(_ & _ & ->)].
  - split.
    + intros Hm.
      destruct (bfs_loop_spec g s target Hg) as (r & n & Hn & Hpost).
      { by apply vertex_exists_get. }
      assert (breadth_first_search (m `max` n) g s target = Some r) as Hr.
      { unfold breadth_first_search, vertex_exists in *.
        rewrite Hs, Htruthy. simpl. apply Hn. lia. }
      apply (breadth_first_search_mono g _ (m `max` n)%nat) in Hm; [|lia].
      destruct Hpost as (l & _ & _ & Hshape). rewrite Htruthy in Hshape.
      congruence.
    + intros [[? _]|(_ & (t & -> & Hne & _) & _)]; [done|].
      simpl in Htruthy. apply negb_false_iff, String.eqb_eq in Htruthy.
      done.
Qed.

Lemma breadth_first_search_raises_witness :
  breadth_first_search 0 abc_chain "A" (Some "Z")
  = Some (Raise (GraphException msg_no_target)).
Proof.
  apply (proj2 (breadth_first_search_raises abc_chain "A" (Some "Z") 0
                  (GraphException msg_no_target) eq_refl)).
  right. split; [reflexivity|]. split; [|reflexivity].
  exists "Z". repeat split. discriminate.
Defined.

(** ** The loop of min_path *)

Section pq_facts.
Implicit Types (q : PriorityQueue) (e m : Z * string).

Lemma pq_min_le best q e : e ∈ best :: q → (pq_min best q).1 ≤ e.1.
Proof.
  revert best e. induction q as [|e0 q IH]; intros best e; simpl.
  - intros ->%list_elem_of_singleton. lia.
  - destruct (e0.1 <? best.1) eqn:Hlt.
    + apply Z.ltb_lt in Hlt. intros [->|Hin]%elem_of_cons.
      * specialize (IH e0 e0 ltac:(by left)). lia.
      * by apply IH.
    + apply Z.ltb_ge in Hlt.
      intros [->|[->|Hin]%elem_of_cons]%elem_of_cons.
      * apply IH. by left.
      * specialize (IH best best ltac:(by left)). lia.
      * apply IH. by right.
Qed.

Lemma pq_remove_subset m q e : e ∈ pq_remove m q → e ∈ q.
Proof.
  induction q as [|e0 q IH]; simpl; [done|].
  destruct (decide (m = e0)); [by right|].
  intros [->|Hin]%elem_of_cons; [by left | right; auto].
Qed.

Lemma pq_remove_rest m q e : e ∈ q → e = m ∨ e ∈ pq_remove m q.
Proof.
  induction q as [|e0 q IH]; simpl; [by intros ?%elem_of_nil|].
  intros [->|Hin]%elem_of_cons.
  - destruct (decide (m = e0)); [by left | right; by left].
  - destruct (decide (m = e0)); [by right|].
    destruct (IH Hin); [by left | right; by right].
Qed.

(** [dequeue] hands out an entry of smallest priority and keeps all the
    others. *)
Lemma pq_dequeue_spec q m q' :
  pq_dequeue q = Some (m, q') →
  m ∈ q ∧ (∀ e, e ∈ q → m.1 ≤ e.1) ∧
  (∀ e, e ∈ q' → e ∈ q) ∧ (∀ e, e ∈ q → e = m ∨ e ∈ q').
Proof.
  destruct q as [|e0 q0]; [done|]. unfold pq_dequeue.
  pose proof (pq_min_in e0 q0) as Hin.
  pose proof (pq_min_le e0 q0) as Hle.
  pose proof (pq_remove_subset (pq_min e0 q0) (e0 :: q0)) as Hsub.
  pose proof (pq_remove_rest (pq_min e0 q0) (e0 :: q0)) as Hrest.
  intros [= <- <-]. done.
Qed.

Lemma pq_dequeue_none q : pq_dequeue q = None → q = [].
Proof. by destruct q. Qed.
End pq_facts.

Section mp_loop_facts.
Context {A : Type} (g : DirectedGraph A) (s : string).

Lemma wpath_path v d : wpath g s v d → path g s v.
Proof.
  induction 1 as [|v w d c _ IH Hw]; [apply rtc_refl|].
  eapply rtc_r; [done|]. apply edge_weight_edge. rewrite Hw. eauto.
Qed.

Lemma dict_get_elem {V} (d : dict V) k v :
  NoDup (dict_keys d) → (k, v) ∈ d → dict_get k d = Some v.
Proof.
  unfold dict_keys. induction d as [|[k0 v0] d IH]; simpl.
  - by intros _ ?%elem_of_nil.
  - intros [Hk0 Hnd]%NoDup_cons [[= -> ->]|Hin]%elem_of_cons.
    + by rewrite decide_True.
    + rewrite decide_False; [by apply IH|]. intros ->. apply Hk0.
      apply list_elem_of_fmap. by exists (k0, v).
Qed.

Lemma StronglySorted_snoc (l : list Z) (x : Z) :
  StronglySorted Z.le l → Forall (λ y, y ≤ x) l →
  StronglySorted Z.le (l ++ [x]).
Proof.
  induction 1 as [|y l Hl IH Hy]; simpl.
  - intros _. repeat constructor.
  - intros [Hyx Hlx]%Forall_cons. constructor; [by apply IH|].
    apply Forall_app. split; [done|]. by constructor.
Qed.

(** The [for] loop of [min_path] over an adjacency mapping whose weights
    are all integers: nothing is raised and one entry per neighbour joins
    the queue. *)
Lemma mp_enqueue_fold (d : Z) (adj : dict weight) (ks : list string)
    (pq : PriorityQueue) :
  (∀ w, w ∈ ks → ∃ c, dict_get w adj = Some (Some c)) →
  ∃ pq2,
    fold_left
      (λ acc vert,
         match acc with
         | Raise e => Raise e
         | Ok p_queue =>
             match dict_get vert adj with
             | Some (Some w) =>
                 let vert_priority := d + w in
                 Ok (pq_enqueue vert_priority vert p_queue)
             | Some None => Raise TypeError
             | None => Raise (KeyError vert)
             end
         end)
      ks (Ok pq) = Ok pq2 ∧
    ∀ e, e ∈ pq2 ↔
         e ∈ pq ∨ ∃ w c, w ∈ ks ∧ dict_get w adj = Some (Some c) ∧
                         e = (d + c, w).
Proof.
  revert pq. induction ks as [|k ks IH]; intros pq Hks.
  - exists pq. split; [done|]. intros e. split; [by left|].
    by intros [?|(w & c & ?%elem_of_nil & _)].
  - destruct (Hks k) as [c Hc]; [by left|].
    destruct (IH (pq_enqueue (d + c) k pq)) as (pq2 & Heq & Hmem).
    { intros w Hw. apply Hks. by right. }
    exists pq2. split; [rewrite <- Heq; simpl; by rewrite Hc|].
    intros e. rewrite Hmem.
    unfold pq_enqueue. rewrite elem_of_app, list_elem_of_singleton. split.
    + intros [[?| ->]|(w & c' & Hin & Hw & ->)].
      * by left.
      * right. exists k, c. split; [by left | done].
      * right. exists w, c'. split; [by right | done].
    + intros [?|(w & c' & [->|Hin]%elem_of_cons & Hw & ->)].
      * left. by left.
      * left. right. congruence.
      * right. by exists w, c'.
Qed.

Lemma mp_enqueue_adj_ok (d : Z) (adj : dict weight) (pq : PriorityQueue) :
  (∀ w x, dict_get w adj = Some x → is_Some x) →
  ∃ pq2, mp_enqueue_adj d adj pq = Ok pq2 ∧
    ∀ e, e ∈ pq2 ↔
         e ∈ pq ∨ ∃ w c, dict_get w adj = Some (Some c) ∧ e = (d + c, w).
Proof.
  intros Hadj.
  destruct (mp_enqueue_fold d adj (dict_keys adj) pq) as (pq2 & Heq & Hmem).
  { intros w [x Hx]%dict_keys_get.
    destruct (Hadj w x Hx) as [c ->]. eauto. }
  exists pq2. split; [exact Heq|]. intros e. rewrite Hmem. split.
  - intros [?|(w & c & _ & ? & ?)]; [by left | right; eauto].
  - intros [?|(w & c & Hw & ?)]; [by left|]. right. exists w, c.
    split; [|done]. apply dict_keys_get. eauto.
Qed.

(** The graph is such that the loop raises nothing: its adjacency keys
    are vertices, its stored weights are integers, and [s] is a vertex. *)
Hypothesis Hclosed : adj_closed g.
Hypothesis Hweights : ∀ u v w, edge_weight g u v = Some w → is_Some w.
Hypothesis Hsource : is_Some (dict_get s (_vertices g)).

Lemma mp_body_inv st :
  mp_inv g s st →
  match mp_body g st with
  | inl st' => mp_inv g s st'
  | inr r => ∃ visited, r = Ok visited ∧ mp_post g s visited
  end.
Proof.
  destruct st as [visited pq]. intros (Hnd & Hpq & Hvis & Hcl & Hs).
  simpl in *. unfold mp_body.
  destruct (pq_dequeue pq) as [[[d v] pq']|] eqn:Hdq.
  - apply pq_dequeue_spec in Hdq as (Hin & Hmin & Hsub & Hrest).
    destruct (dict_contains v visited) eqn:Hc; simpl.
    + (* a stale entry *)
      split; [done|]. split; [by intros d0 v0 ?%Hsub%Hpq|].
      split; [done|]. split.
      * intros u du w c Hu Hw.
        destruct (Hcl u du w c Hu Hw) as [?|[[= <- <-]|?]%Hrest]; auto.
        left. by apply dict_contains_get.
      * right. destruct Hs as [[-> _]|?]; done.
    + (* [v] is finalized at [d] *)
      apply dict_contains_false in Hc.
      pose proof (Hpq d v Hin) as Hpath.
      destruct (path_vertex g s v Hclosed Hsource (wpath_path v d Hpath))
        as [vert Hvert].
      rewrite Hvert.
      assert (∀ w, edge_weight g v w = dict_get w (adj_dict vert)) as Hadj
        by (intros w; unfold edge_weight; by rewrite Hvert).
      destruct (mp_enqueue_adj_ok d (adj_dict vert) pq') as (pq2 & -> & Hmem).
      { intros w x Hw. apply (Hweights v w). by rewrite (Hadj w). }
      split; [by apply dict_keys_NoDup_set|]. simpl. split; [|split; [|split]].
      * intros d0 v0 [Hold|(w & c & Hw & Heq)]%Hmem.
        -- by apply Hpq, Hsub.
        -- injection Heq as -> ->.
           apply (wpath_snoc g s v); [done|]. by rewrite (Hadj w).
      * intros u du. rewrite dict_get_set. case_decide; [|apply Hvis].
        intros [= <-]. by subst u.
      * intros u du w c. rewrite !dict_get_set.
        destruct (decide (u = v)) as [->|Hu].
        -- intros [= <-] Hw. right. apply Hmem. right. exists w, c.
           split; [|done]. by rewrite <- (Hadj w).
        -- intros Hdu Hw.
           destruct (Hcl u du w c Hdu Hw) as [?|[[= <- <-]|?]%Hrest].
           ++ left. by case_decide.
           ++ left. by rewrite decide_True.
           ++ right. apply Hmem. by left.
      * right. rewrite dict_get_set. destruct Hs as [[-> ->]|Hs0].
        -- apply list_elem_of_singleton in Hin as [= -> ->].
           by rewrite decide_True.
        -- case_decide; [congruence | done].
  - (* the queue is empty *)
    apply pq_dequeue_none in Hdq as ->. exists visited. split; [done|].
    assert (dict_get s visited = Some 0) as Hs0
      by (by destruct Hs as [[_ ?]|?]).
    split; [done|]. split; [|done]. intros v. rewrite dict_keys_get. split.
    + intros [d Hd]. by apply (wpath_path v d), Hvis.
    + revert v. apply (rtc_ind_r (λ v, is_Some (dict_get v visited)));
        [eauto|].
      intros u w _ He [du Hdu].
      apply edge_weight_edge in He as [x Hx].
      destruct (Hweights u w x Hx) as [c ->].
      by destruct (Hcl u du w c Hdu Hx) as [?|?%elem_of_nil].
Qed.

Lemma mp_inv_init : mp_inv g s (mp_init s).
Proof.
  unfold mp_init, pq_enqueue. simpl. repeat split; simpl.
  - apply NoDup_nil_2.
  - intros d v [= -> ->]%list_elem_of_singleton. constructor.
  - done.
  - done.
  - by left.
Qed.

Lemma mp_loop_spec :
  ∃ visited n,
    (∀ m, (n ≤ m)%nat →
       run_loop (mp_body g) m (mp_init s) = Some (Ok visited)) ∧
    mp_post g s visited.
Proof.
  destruct (mp_loop_total g (mp_init s)) as (r & n & Hn).
  assert (∃ visited, r = Ok visited ∧ mp_post g s visited)
    as (visited & -> & Hpost).
  { apply (run_loop_inv (mp_body g) (mp_inv g s)
             (λ r, ∃ visited, r = Ok visited ∧ mp_post g s visited)
             mp_body_inv n (mp_init s)); [apply mp_inv_init | by apply Hn]. }
  by exists visited, n.
Qed.
End mp_loop_facts.

Section mp_min_facts.
Context {A : Type} (g : DirectedGraph A) (s : string).
Hypothesis Hclosed : adj_closed g.
Hypothesis Hweights : ∀ u v w, edge_weight g u v = Some w → is_Some w.
Hypothesis Hsource : is_Some (dict_get s (_vertices g)).
Hypothesis Hnonneg : nonnegative_weights g.

(** A path to a vertex that is not finalized crosses the queue: some
    queued distance is at most the weight of the path. *)
Lemma mp_frontier st x d' :
  mp_inv g s st → mp_inv_min g s st →
  wpath g s x d' → dict_get x st.1 = None →
  ∃ e y, (e, y) ∈ st.2 ∧ e ≤ d'.
Proof.
  intros (_ & _ & _ & Hcl & Hs) (Hmin & _ & _) Hp.
  induction Hp as [|v w d c Hp IH Hw]; intros Hx.
  - destruct Hs as [[_ ->]|?]; [|congruence].
    exists 0, s. split; [by left | lia].
  - pose proof (Hnonneg v w c Hw).
    destruct (dict_get v st.1) as [dv|] eqn:Hv.
    + destruct (Hcl v dv w c Hv Hw) as [[? ?]|?]; [congruence|].
      exists (dv + c), w. split; [done|].
      specialize (Hmin v dv d Hv Hp). lia.
    + destruct IH as (e & y & ? & ?); [done|]. exists e, y. split; [done|lia].
Qed.

Lemma mp_body_inv_min st :
  mp_inv g s st ∧ mp_inv_min g s st →
  match mp_body g st with
  | inl st' => mp_inv g s st' ∧ mp_inv_min g s st'
  | inr r =>
      ∃ visited, r = Ok visited ∧ mp_post g s visited ∧
                 mp_post_min g s visited
  end.
Proof.
  intros [Hinv Hopt].
  pose proof (mp_body_inv g s Hclosed Hweights Hsource st Hinv) as Hstep.
  pose proof (λ x d', mp_frontier st x d' Hinv Hopt) as Hfront.
  destruct st as [visited pq].
  destruct Hinv as (Hnd & Hpq & _). destruct Hopt as (Hmin & Hlow & Hsorted).
  simpl in *. unfold mp_body in *.
  destruct (pq_dequeue pq) as [[[d v] pq']|] eqn:Hdq.
  - apply pq_dequeue_spec in Hdq as (Hin & Hle & Hsub & _).
    destruct (dict_contains v visited) eqn:Hc; simpl in *.
    + split; [done|]. split; [done|]. split; [|done].
      intros d0 v0 u du Hd0%Hsub Hu. by apply (Hlow d0 v0 u du).
    + apply dict_contains_false in Hc.
      destruct (dict_get v (_vertices g)) as [vert|] eqn:Hvert.
      2: { by destruct Hstep as (? & ? & _). }
      destruct (mp_enqueue_adj_ok d (adj_dict vert) pq') as (pq2 & Heq & Hmem).
      { intros w x Hw. apply (Hweights v w). unfold edge_weight.
        by rewrite Hvert. }
      rewrite Heq in *. split; [done|]. split; [|split]; simpl.
      * intros u du d'. rewrite dict_get_set. case_decide; [|apply Hmin].
        intros [= <-] Hp. subst u.
        destruct (Hfront v d') as (e & y & Hey & ?); [done|done|].
        specialize (Hle (e, y) Hey). simpl in Hle. lia.
      * intros d0 v0 u du Hd0 Hu.
        assert (du ≤ d) as Hdu.
        { revert Hu. rewrite dict_get_set. case_decide.
          - intros [= <-]. lia.
          - intros Hu. by apply (Hlow d v u du). }
        apply Hmem in Hd0 as [Hold%Hsub|(w & c & Hw & Hnew)].
        -- revert Hu. rewrite dict_get_set. case_decide.
           ++ intros [= <-]. apply (Hle (d0, v0) Hold).
           ++ intros Hu. by apply (Hlow d0 v0 u du).
        -- injection Hnew as -> ->. assert (0 ≤ c); [|lia].
           apply (Hnonneg v w c). unfold edge_weight. by rewrite Hvert.
      * rewrite dict_set_absent, fmap_app by done. simpl.
        apply StronglySorted_snoc; [done|].
        apply Forall_forall. intros x [[u x'] [-> Hux]]%list_elem_of_fmap.
        simpl. apply (Hlow d v u x' Hin). by apply dict_get_elem.
  - destruct Hstep as (visited' & [= <-] & Hpost).
    exists visited. split; [done|]. split; [done|]. by split.
Qed.

Lemma mp_loop_spec_min :
  ∃ visited n,
    (∀ m, (n ≤ m)%nat →
       run_loop (mp_body g) m (mp_init s) = Some (Ok visited)) ∧
    mp_post g s visited ∧ mp_post_min g s visited.
Proof.
  destruct (mp_loop_total g (mp_init s)) as (r & n & Hn).
  assert (∃ visited, r = Ok visited ∧ mp_post g s visited ∧
                     mp_post_min g s visited)
    as (visited & -> & Hpost).
  { apply (run_loop_inv (mp_body g)
             (λ st, mp_inv g s st ∧ mp_inv_min g s st)
             (λ r, ∃ visited, r = Ok visited ∧ mp_post g s visited ∧
                              mp_post_min g s visited)
             mp_body_inv_min n (mp_init s)); [|by apply Hn].
    split; [apply mp_inv_init|]. unfold mp_init. repeat split; simpl.
    - done.
    - done.
    - constructor. }
  by exists visited, n.
Qed.
End mp_min_facts.

Lemma built_weights_some {A} (g : DirectedGraph A) :
  built g → _weighted g = true →
  ∀ u v w, edge_weight g u v = Some w → is_Some w.
Proof.
  intros (_ & _ & _ & Hw)%built_graph_ok Hweighted u v w Huv.
  specialize (Hw u v w Huv). rewrite Hweighted in Hw.
  by destruct w.
Qed.

Lemma min_path_loop_run {A} (g : DirectedGraph A) (s : string) (m : nat) :
  _weighted g = true → vertex_exists g s = true →
  min_path_loop m g s = run_loop (mp_body g) m (mp_init s).
Proof.
  unfold min_path_loop, vertex_exists. by intros -> ->.
Qed.

Lemma abc_weighted_nonnegative : nonnegative_weights abc_weighted.
Proof.
  intros u v c. unfold edge_weight. simpl.
  repeat (case_decide; simpl); try done; intros [= <-]; lia.
Qed.

(** X15. The outcomes of [min_path]. On an unweighted graph the call
    raises the "requires a weighted graph" [GraphException] (kind
    InvalidArgument) whatever the source, present or not; on a weighted
    graph without the source it raises the "no vertex" one (kind NotFound);
    both before the loop, with any fuel. On a weighted graph built by the
    public operations, with the source present, it raises nothing (no
    [KeyError], no [TypeError]) and returns [None]. *)
Theorem min_path_outcome {A} (g : DirectedGraph A) (s : string) :
  built g →
  (_weighted g = false →
     ∀ m, min_path m g s = Some (Raise (GraphException msg_unweighted))) ∧
  (_weighted g = true → vertex_exists g s = false →
     ∀ m, min_path m g s = Some (Raise (GraphException msg_no_vertex))) ∧
  (_weighted g = true → vertex_exists g s = true →
     ∃ n, ∀ m, (n ≤ m)%nat → min_path m g s = Some (Ok None)) ∧
  InvalidArgument (GraphException msg_unweighted) ∧
  NotFound (GraphException msg_no_vertex).
Proof.
  intros Hb. split; [|split; [|split; [|split]]].
  - intros Hw m. unfold min_path, min_path_loop. by rewrite Hw.
  - intros Hw Hs m. unfold min_path, min_path_loop, vertex_exists in *.
    by rewrite Hw, Hs.
  - intros Hw Hs.
    destruct (mp_loop_spec g s) as (visited & n & Hn & _).
    + by apply closed_spec, built_closed.
    + by apply built_weights_some.
    + by apply vertex_exists_get.
    + exists n. intros m Hm. unfold min_path.
      rewrite (min_path_loop_run g s m Hw Hs). by rewrite Hn.
  - by right.
  - by left.
Qed.

Lemma min_path_outcome_witness :
  (∀ m, min_path m abc_chain "Z"
        = Some (Raise (GraphException msg_unweighted))) ∧
  (∀ m, min_path m abc_weighted "Z"
        = Some (Raise (GraphException msg_no_vertex))) ∧
  (∃ n, ∀ m, (n ≤ m)%nat → min_path m abc_weighted "B" = Some (Ok None)).
Proof.
  destruct (min_path_outcome abc_chain "Z" built_abc_chain) as (H1 & _).
  destruct (min_path_outcome abc_weighted "Z" built_abc_weighted)
    as (_ & H2 & _).
  destruct (min_path_outcome abc_weighted "B" built_abc_weighted)
    as (_ & _ & H3 & _).
  split; [apply H1; reflexivity|].
  split; [apply H2; reflexivity|]. apply H3; reflexivity.
Defined.

(** X16. What the loop of [min_path] computes before the function ends.
    On a weighted graph built by the public operations, with the source
    [s] present, the loop terminates with the local dictionary
    [visited_vert] holding exactly the vertices reachable from [s], each
    once; [s] is mapped to 0 and every distance stored is the total weight
    of some directed path from [s] to that vertex. This holds for weights
    of either sign. *)
Theorem min_path_loop_reaches {A} (g : DirectedGraph A) (s : string) :
  built g → _weighted g = true → vertex_exists g s = true →
  ∃ visited_vert n,
    (∀ m, (n ≤ m)%nat → min_path_loop m g s = Some (Ok visited_vert)) ∧
    NoDup (dict_keys visited_vert) ∧
    (∀ v, v ∈ dict_keys visited_vert ↔ path g s v) ∧
    dict_get s visited_vert = Some 0 ∧
    (∀ v d, dict_get v visited_vert = Some d → wpath g s v d).
Proof.
  intros Hb Hw Hs.
  destruct (mp_loop_spec g s) as (visited & n & Hn & Hpost).
  - by apply closed_spec, built_closed.
  - by apply built_weights_some.
  - by apply vertex_exists_get.
  - exists visited, n. split; [|exact Hpost].
    intros m Hm. rewrite (min_path_loop_run g s m Hw Hs). by apply Hn.
Qed.

Lemma min_path_loop_reaches_witness :
  ∃ visited_vert n,
    (∀ m, (n ≤ m)%nat →
       min_path_loop m abc_weighted "A" = Some (Ok visited_vert)) ∧
    (∀ v, v ∈ dict_keys visited_vert ↔ path abc_weighted "A" v).
Proof.
  destruct (min_path_loop_reaches abc_weighted "A" built_abc_weighted)
    as (visited & n & Hn & _ & Hreach & _); try reflexivity.
  exists visited, n. split; [exact Hn | exact Hreach].
Defined.



(** ** Mutators and reachability *)

Section path_facts.
Context {A : Type}.
Implicit Types (g : DirectedGraph A).

Lemma path_subrel g g' u v :
  (∀ x y, edge_exists g x y = true → edge_exists g' x y = true) →
  path g u v → path g' u v.
Proof.
  intros Hsub. apply rtc_subrel. intros x y.
  rewrite <- !edge_exists_edge. apply Hsub.
Qed.

Lemma add_vertex_edge_exists g identifier value u w :
  edge_exists (add_vertex g identifier value).2 u w = edge_exists g u w.
Proof.
  unfold add_vertex, edge_exists.
  destruct (dict_get identifier (_vertices g)) as [old|] eqn:Hold; simpl;
    rewrite dict_get_set; case_decide; subst; by rewrite ?Hold.
Qed.

Lemma add_edge_edge_exists_mono g a b w u v :
  edge_exists g u v = true → edge_exists (add_edge g a b w).2 u v = true.
Proof.
  intros He.
  destruct (vertex_exists g a) eqn:Ha.
  2: { by rewrite (add_edge_no_source g a b w Ha). }
  destruct (vertex_exists g b) eqn:Hb.
  2: { by rewrite (add_edge_no_dest g a b w Ha Hb). }
  pose proof Ha as [va Hva]%vertex_exists_get.
  destruct (dict_get b (adj_dict va)) as [w0|] eqn:Hab.
  { assert (add_edge g a b w = (Ok tt, g)) as ->; [|done].
    unfold add_edge, vertex_exists, dict_contains in *.
    rewrite Hva. simpl. destruct (dict_get b (_vertices g)); [|done].
    simpl. by rewrite Hab. }
  destruct (_weighted g && negb (truthy w)) eqn:Hwt.
  { assert (add_edge g a b w = (Raise (GraphException msg_no_weight), g))
      as ->; [|done].
    unfold add_edge, vertex_exists, dict_contains in *.
    rewrite Hva. simpl. destruct (dict_get b (_vertices g)); [|done].
    simpl. by rewrite Hab, Hwt. }
  rewrite (add_edge_new g a b w va Hva Hb Hab Hwt).
  unfold edge_exists in *. simpl. rewrite dict_get_set.
  destruct (decide (u = a)) as [->|Hu]; [|done]. simpl.
  rewrite Hva in He. rewrite dict_contains_set. by case_decide.
Qed.

Lemma remove_edge_edge_exists_anti g a b u v :
  edge_exists (remove_edge g a b).2 u v = true → edge_exists g u v = true.
Proof.
  destruct (edge_exists g a b) eqn:He.
  2: { by rewrite (remove_edge_absent g a b He). }
  unfold edge_exists in He.
  destruct (dict_get a (_vertices g)) as [va|] eqn:Hva; [|done].
  apply dict_contains_get in He.
  rewrite (remove_edge_present g a b va Hva He).
  unfold edge_exists. simpl. rewrite dict_get_set.
  destruct (decide (u = a)) as [->|Hu]; [|done]. simpl. rewrite Hva.
  rewrite dict_contains_del. by case_decide.
Qed.

Lemma remove_vertex_edge_exists_anti g x u v :
  edge_exists (remove_vertex g x).2 u v = true → edge_exists g u v = true.
Proof.
  destruct (remove_vertex g x) as [r g'] eqn:Hrm.
  assert (r = Ok tt ∨ g' = g) as [-> | ->]; [|simpl|done].
  { revert Hrm. unfold remove_vertex. destruct (negb _); intros [= <- <-];
      auto. }
  unfold edge_exists. rewrite (remove_vertex_get g x g' u Hrm).
  case_decide; [done|].
  destruct (dict_get u (_vertices g)) as [vert|]; [|done]. simpl.
  rewrite dict_contains_del. by case_decide.
Qed.
End path_facts.

(** X18. How the mutators move reachability, whatever their outcome:
    [add_vertex] changes no path; [add_edge] destroys none; [remove_edge]
    and [remove_vertex] create none. *)
Theorem mutators_and_paths {A} (g : DirectedGraph A) (u v : string) :
  (∀ identifier value,
     path (add_vertex g identifier value).2 u v ↔ path g u v) ∧
  (∀ a b w, path g u v → path (add_edge g a b w).2 u v) ∧
  (∀ a b, path (remove_edge g a b).2 u v → path g u v) ∧
  (∀ x, path (remove_vertex g x).2 u v → path g u v).
Proof.
  split; [|split; [|split]].
  - intros identifier value.
    split; apply path_subrel; intros x y;
      by rewrite add_vertex_edge_exists.
  - intros a b w. apply path_subrel. intros x y.
    apply add_edge_edge_exists_mono.
  - intros a b. apply path_subrel. intros x y.
    apply remove_edge_edge_exists_anti.
  - intros x. apply path_subrel. intros y z.
    apply remove_vertex_edge_exists_anti.
Qed.

Lemma mutators_and_paths_witness :
  path (add_edge abc_chain "C" "A" None).2 "A" "C".
Proof.
  apply (proj1 (proj2 (mutators_and_paths abc_chain "A" "C"))).
  apply (rtc_l _ _ "B"); [|apply rtc_once];
    apply edge_exists_edge; reflexivity.
Defined.

(** X19. A successful [add_edge] is seen by the searches: on a graph
    built by the public operations, if [add_edge a b w] raises nothing then
    [depth_first_search a b] on the resulting graph returns true, for every
    fuel large enough. *)
Theorem add_edge_then_search {A} (g : DirectedGraph A) (a b : string)
    (w : weight) :
  closed g = true → (add_edge g a b w).1 = Ok tt →
  ∃ n, ∀ m, (n ≤ m)%nat →
    depth_first_search m (add_edge g a b w).2 a b = Some (Ok true).
Proof.
  intros Hg Hok.
  destruct (add_edge_edge_exists g a b w Hok) as (He & Ha & Hb).
  assert (adj_closed (add_edge g a b w).2) as Hg'.
  { apply adj_closed_add_edge. by apply closed_spec. }
  destruct (dfs_found_spec _ a b Hg' Ha Hb) as (r & n & Hn & Hr).
  assert (r = true) as ->.
  { apply Hr, rtc_once. by apply edge_exists_edge. }
  by exists n.
Qed.

Lemma add_edge_then_search_witness :
  ∃ n, ∀ m, (n ≤ m)%nat →
    depth_first_search m (add_edge abc_chain "C" "A" None).2 "C" "A"
    = Some (Ok true).
Proof.
  apply (add_edge_then_search abc_chain "C" "A" None); reflexivity.
Defined.
